(** * Base32 codec of lua-base32 ([src/base32.c]): shallow embedding

    The two Lua entry points [decode_lua] and [encode_lua] are embedded as
    total functions on byte lists.  Machine integers are carried as [Z]
    with their wrap-around written where the C type can overflow; the
    Lua buffer [luaL_Buffer] is a byte list that grows at its end. *)

From Stdlib Require Import ZArith List Lia Bool Arith Btauto.
From Stdlib Require Import Init.Byte Strings.Byte Strings.String.
From coqutil Require Import Z.bitblast.
Import ListNotations.

Local Open Scope Z_scope.

(** ** Machine integers and bytes *)

Definition uint8 (z : Z) : Z := z mod 2 ^ 8.
Definition uint32 (z : Z) : Z := z mod 2 ^ 32.
Definition uint64 (z : Z) : Z := z mod 2 ^ 64.

(** A [uint8_t] read from a Lua string, as the integer the C code sees. *)
Definition Z_of_byte (b : byte) : Z := Z.of_N (Byte.to_N b).

(** Storing an integer expression into a [char]: truncation to 8 bits. *)
Definition to_char (z : Z) : byte :=
  match Byte.of_N (Z.to_N (uint8 z)) with
  | Some b => b
  | None => x00
  end.

(** A C string literal, as the list of its bytes. *)
Definition bytes (s : string) : list byte := list_byte_of_string s.

(** ** Lookup tables *)

(** RFC 4648 Base32 decoding table. *)
Definition RFC_DECODE_TABLE : list Z := [
    0xFF; 0xFF; 0xFF; 0xFF; 0xFF; 0xFF; 0xFF; 0xFF; 0xFF; 0xFF; 0xFF; 0xFF;
    0xFF; 0xFF; 0xFF; 0xFF; 0xFF; 0xFF; 0xFF; 0xFF; 0xFF; 0xFF; 0xFF; 0xFF;
    0xFF; 0xFF; 0xFF; 0xFF; 0xFF; 0xFF; 0xFF; 0xFF; 0xFF; 0xFF; 0xFF; 0xFF;
    0xFF; 0xFF; 0xFF; 0xFF; 0xFF; 0xFF; 0xFF; 0xFF; 0xFF; 0xFF; 0xFF; 0xFF;
    0xFF; 0xFF;

    (* 2-7 *)
    26; 27; 28; 29; 30; 31;

    0xFF; 0xFF; 0xFF; 0xFF; 0xFF; 0xFF; 0xFF; 0xFF; 0xFF;

    (* A-Z *)
    0; 1; 2; 3; 4; 5; 6; 7; 8; 9; 10; 11; 12; 13; 14; 15; 16; 17; 18; 19; 20;
    21; 22; 23; 24; 25;

    0xFF; 0xFF; 0xFF; 0xFF; 0xFF; 0xFF;

    (* a-z *)
    0; 1; 2; 3; 4; 5; 6; 7; 8; 9; 10; 11; 12; 13; 14; 15; 16; 17; 18; 19; 20;
    21; 22; 23; 24; 25;

    0xFF; 0xFF; 0xFF; 0xFF; 0xFF; 0xFF; 0xFF; 0xFF; 0xFF; 0xFF; 0xFF; 0xFF;
    0xFF; 0xFF; 0xFF; 0xFF; 0xFF; 0xFF; 0xFF; 0xFF; 0xFF; 0xFF; 0xFF; 0xFF;
    0xFF; 0xFF; 0xFF; 0xFF; 0xFF; 0xFF; 0xFF; 0xFF; 0xFF; 0xFF; 0xFF; 0xFF;
    0xFF; 0xFF; 0xFF; 0xFF; 0xFF; 0xFF; 0xFF; 0xFF; 0xFF; 0xFF; 0xFF; 0xFF;
    0xFF; 0xFF; 0xFF; 0xFF; 0xFF; 0xFF; 0xFF; 0xFF; 0xFF; 0xFF; 0xFF; 0xFF;
    0xFF; 0xFF; 0xFF; 0xFF; 0xFF; 0xFF; 0xFF; 0xFF; 0xFF; 0xFF; 0xFF; 0xFF;
    0xFF; 0xFF; 0xFF; 0xFF; 0xFF; 0xFF; 0xFF; 0xFF; 0xFF; 0xFF; 0xFF; 0xFF;
    0xFF; 0xFF; 0xFF; 0xFF; 0xFF; 0xFF; 0xFF; 0xFF; 0xFF; 0xFF; 0xFF; 0xFF;
    0xFF; 0xFF; 0xFF; 0xFF; 0xFF; 0xFF; 0xFF; 0xFF; 0xFF; 0xFF; 0xFF; 0xFF;
    0xFF; 0xFF; 0xFF; 0xFF; 0xFF; 0xFF; 0xFF; 0xFF; 0xFF; 0xFF; 0xFF; 0xFF;
    0xFF; 0xFF; 0xFF; 0xFF; 0xFF; 0xFF; 0xFF; 0xFF; 0xFF; 0xFF; 0xFF; 0xFF;
    0xFF].

(** Crockford's Base32 decoding table (0xFF means invalid character). *)
Definition CROCKFORD_DECODE_TABLE : list Z := [
    0xFF; 0xFF; 0xFF; 0xFF; 0xFF; 0xFF; 0xFF; 0xFF; 0xFF; 0xFF; 0xFF; 0xFF;
    0xFF; 0xFF; 0xFF; 0xFF; 0xFF; 0xFF; 0xFF; 0xFF; 0xFF; 0xFF; 0xFF; 0xFF;
    0xFF; 0xFF; 0xFF; 0xFF; 0xFF; 0xFF; 0xFF; 0xFF; 0xFF; 0xFF; 0xFF; 0xFF;
    0xFF; 0xFF; 0xFF; 0xFF; 0xFF; 0xFF; 0xFF; 0xFF; 0xFF; 0xFF; 0xFF; 0xFF;

    (* 0-9 *)
    0; 1; 2; 3; 4; 5; 6; 7; 8; 9;

    0xFF; 0xFF; 0xFF; 0xFF; 0xFF; 0xFF; 0xFF;

    (* A-Z (I=1, L=1, O=0, U=0xFF) *)
    10; 11; 12; 13; 14; 15; 16; 17; 1; 18; 19; 1; 20; 21; 0; 22; 23; 24; 25; 26;
    0xFF; 27; 28; 29; 30; 31;


    0xFF; 0xFF; 0xFF; 0xFF; 0xFF; 0xFF;

    (* a-z (i=1, l=1, o=0, u=0xFF) *)
    10; 11; 12; 13; 14; 15; 16; 17; 1; 18; 19; 1; 20; 21; 0; 22; 23; 24; 25; 26;
    0xFF; 27; 28; 29; 30; 31;

    0xFF; 0xFF; 0xFF; 0xFF; 0xFF; 0xFF; 0xFF; 0xFF; 0xFF; 0xFF; 0xFF; 0xFF;
    0xFF; 0xFF; 0xFF; 0xFF; 0xFF; 0xFF; 0xFF; 0xFF; 0xFF; 0xFF; 0xFF; 0xFF;
    0xFF; 0xFF; 0xFF; 0xFF; 0xFF; 0xFF; 0xFF; 0xFF; 0xFF; 0xFF; 0xFF; 0xFF;
    0xFF; 0xFF; 0xFF; 0xFF; 0xFF; 0xFF; 0xFF; 0xFF; 0xFF; 0xFF; 0xFF; 0xFF;
    0xFF; 0xFF; 0xFF; 0xFF; 0xFF; 0xFF; 0xFF; 0xFF; 0xFF; 0xFF; 0xFF; 0xFF;
    0xFF; 0xFF; 0xFF; 0xFF; 0xFF; 0xFF; 0xFF; 0xFF; 0xFF; 0xFF; 0xFF; 0xFF;
    0xFF; 0xFF; 0xFF; 0xFF; 0xFF; 0xFF; 0xFF; 0xFF; 0xFF; 0xFF; 0xFF; 0xFF;
    0xFF; 0xFF; 0xFF; 0xFF; 0xFF; 0xFF; 0xFF; 0xFF; 0xFF; 0xFF; 0xFF; 0xFF;
    0xFF; 0xFF; 0xFF; 0xFF; 0xFF; 0xFF; 0xFF; 0xFF; 0xFF; 0xFF; 0xFF; 0xFF;
    0xFF; 0xFF; 0xFF; 0xFF; 0xFF; 0xFF; 0xFF; 0xFF; 0xFF; 0xFF; 0xFF; 0xFF;
    0xFF; 0xFF; 0xFF; 0xFF; 0xFF; 0xFF; 0xFF; 0xFF; 0xFF; 0xFF; 0xFF; 0xFF; uint8 (-1)].

Definition tbl_at (tbl : list Z) (c : byte) : Z :=
  nth (N.to_nat (Byte.to_N c)) tbl 0.

(** RFC 4648 Base32 alphabet. *)
Definition RFC_ALPHABET : list byte := bytes "ABCDEFGHIJKLMNOPQRSTUVWXYZ234567".

(** Crockford's Base32 alphabet (excluding I, L, O, U). *)
Definition CROCKFORD_ALPHABET : list byte := bytes "0123456789ABCDEFGHJKMNPQRSTVWXYZ".

Definition char_at (tbl : list byte) (k : Z) : byte := nth (Z.to_nat k) tbl x00.

(** ** The format option

    [opts[] = {"rfc", "crockford", NULL}]; [luaL_checkoption] yields 0 or 1.
    The spec calls the two formats "standard" and "crockford". *)
Inductive format : Set := rfc | crockford.

Definition decode_table (opt : format) : list Z :=
  match opt with
  | rfc => RFC_DECODE_TABLE
  | crockford => CROCKFORD_DECODE_TABLE
  end.

Definition encode_table (opt : format) : list byte :=
  match opt with
  | rfc => RFC_ALPHABET
  | crockford => CROCKFORD_ALPHABET
  end.

(** [tbl == CROCKFORD_DECODE_TABLE] and [tbl == RFC_ALPHABET] compare table
    pointers, that is, the selected option. *)
Definition is_crockford (opt : format) : bool :=
  match opt with crockford => true | rfc => false end.

Definition is_rfc (opt : format) : bool :=
  match opt with rfc => true | crockford => false end.

(** ** Results of [decode_lua]

    A failing call returns [nil] and an error object made by
    [lua_errno_new_with_message].  There are three such sites, told apart by
    errno and message:
    - [InvalidLength]: [EINVAL], "RFC 4648 Base32 requires input length to be
      a multiple of 8";
    - [InvalidPadding]: [EINVAL], "RFC 4648 Base32 padding length must be 0,
      1, 3, 4, or 6" (raised at two places);
    - [IllegalCharacter c pos]: [EILSEQ], "Illegal character in Base32
      string: '%c' (0x%02X) at position %d" formatted with [c], [c] and
      [i + 1].
    Lengths and indices are natural numbers: the counters [size_t len],
    [size_t i], [int npad] and [int nbits] follow a string held in memory
    and do not wrap.  [pos] is [i + 1]; the message prints [(int)(i + 1)],
    the same number for every input shorter than 2^31 bytes. *)
Inductive decode_error : Set :=
| InvalidLength
| InvalidPadding
| IllegalCharacter (c : byte) (pos : nat).

Inductive result : Set :=
| Ok (out : list byte)
| Err (e : decode_error).

(** ** decode_lua *)

(** "remove padding characters": the loop
    [for (; tail > src && tail[-1] == '='; --tail) { len--; npad++; ... }]
    with [tail = src + len] maintained.  [None] is the [return 2] taken
    inside the loop when [npad > 6]; otherwise the final [(len, npad)]. *)
Fixpoint strip_padding (src : list byte) (len npad : nat) : option (nat * nat) :=
  match len with
  | O => Some (len, npad)
  | S len' =>
      if Byte.eqb (nth len' src x00) "="%byte then
        let npad := S npad in
        if (6 <? npad)%nat then None
        else strip_padding src len' npad
      else Some (len, npad)
  end.

(** "number of padding characters must be 0, 1, 3, 4, or 6" *)
Definition bad_npad (npad : nat) : bool :=
  negb (npad =? 0)%nat && negb (npad =? 1)%nat && negb (npad =? 3)%nat &&
  negb (npad =? 4)%nat && negb (npad =? 6)%nat.

(** "Add 5 bits to buffer" and "Extract 5 bytes when we have 40 bits":
    the part of the loop body after the validity check, on the state
    [(acc, nbits, b)] with [uint64_t acc], [int nbits], [luaL_Buffer b]. *)
Definition add5bits (acc : Z) (nbits : nat) (b : list byte) (dc : Z)
  : Z * nat * list byte :=
  let acc := Z.lor (uint64 (Z.shiftl acc 5)) dc in
  let nbits := (nbits + 5)%nat in
  if (40 <=? nbits)%nat then
    let buf := [to_char (Z.land (Z.shiftr acc 32) 0xFF);
                to_char (Z.land (Z.shiftr acc 24) 0xFF);
                to_char (Z.land (Z.shiftr acc 16) 0xFF);
                to_char (Z.land (Z.shiftr acc 8) 0xFF);
                to_char (Z.land acc 0xFF)] in
    (Z.shiftr acc 40, (nbits - 40)%nat, b ++ buf)
  else (acc, nbits, b).

(** [for (size_t i = 0; i < len; i++)] over [src[0..len)], here the list
    [src] of the characters still to read, [i] being the index of its head. *)
Fixpoint decode_loop (opt : format) (src : list byte) (i : nat)
    (acc : Z) (nbits : nat) (b : list byte)
  : decode_error + Z * nat * list byte :=
  match src with
  | [] => inr (acc, nbits, b)
  | c :: src' =>
      let dc := tbl_at (decode_table opt) c in
      (* In Crockford's Base32, '-' is allowed for readability *)
      if Byte.eqb c "-"%byte && is_crockford opt then
        decode_loop opt src' (S i) acc nbits b
      (* Check if character is valid *)
      else if 31 <? dc then inl (IllegalCharacter c (i + 1)%nat)
      else
        let '(acc, nbits, b) := add5bits acc nbits b dc in
        decode_loop opt src' (S i) acc nbits b
  end.

(** "Handle remaining bits":
    [while (nbits >= 8) { nbits -= 8; luaL_addchar(&b, (acc >> nbits) & 0xFF); }]
    Returns the bit count left in the accumulator and the buffer. *)
Fixpoint drain (acc : Z) (nbits : nat) (b : list byte) : nat * list byte :=
  match nbits with
  | S (S (S (S (S (S (S (S n))))))) =>
      drain acc n (b ++ [to_char (Z.land (Z.shiftr acc (Z.of_nat n)) 0xFF)])
  | _ => (nbits, b)
  end.

(** The part of [decode_lua] from [luaL_buffinit] on, for the first [len]
    characters of [src]. *)
Definition decode_scan (opt : format) (src : list byte) (len : nat) : result :=
  match decode_loop opt (firstn len src) 0 0 0 [] with
  | inl e => Err e
  | inr (acc, nbits, b) => Ok (snd (drain acc nbits b))
  end.

Definition decode_lua (src : list byte) (opt : format) : result :=
  let len := List.length src in
  (* If the input string is empty, return empty string *)
  if (len =? 0)%nat then Ok []
  else
    match opt with
    | rfc =>
        (* RFC 4648 Base32 requires input length to be a multiple of 8 *)
        if negb (len mod 8 =? 0)%nat then Err InvalidLength
        else
          match strip_padding src len 0 with
          | None => Err InvalidPadding
          | Some (len, npad) =>
              if bad_npad npad then Err InvalidPadding
              else decode_scan opt src len
          end
    | crockford => decode_scan opt src len
    end.

(** ** encode_lua *)

(** "Process 5 bytes at a time (40 bits -> 8 characters)":
    [while ((tail - head) >= 5)], [head] being the bytes not yet read.
    Returns [head], the buffer and [outlen] after the loop. *)
Fixpoint encode_bulk (tbl : list byte) (head : list byte) (b : list byte)
    (outlen : nat) : list byte * list byte * nat :=
  match head with
  | h0 :: h1 :: h2 :: h3 :: h4 :: head' =>
      (* Load 5 bytes (40 bits) *)
      let acc :=
        Z.lor (Z.lor (Z.lor (Z.lor (Z.shiftl (Z_of_byte h0) 32)
                                   (Z.shiftl (Z_of_byte h1) 24))
                            (Z.shiftl (Z_of_byte h2) 16))
                     (Z.shiftl (Z_of_byte h3) 8))
              (Z_of_byte h4) in
      (* Extract 8 characters (5 bits each) *)
      let buf := [char_at tbl (Z.land (Z.shiftr acc 35) 0x1F);
                  char_at tbl (Z.land (Z.shiftr acc 30) 0x1F);
                  char_at tbl (Z.land (Z.shiftr acc 25) 0x1F);
                  char_at tbl (Z.land (Z.shiftr acc 20) 0x1F);
                  char_at tbl (Z.land (Z.shiftr acc 15) 0x1F);
                  char_at tbl (Z.land (Z.shiftr acc 10) 0x1F);
                  char_at tbl (Z.land (Z.shiftr acc 5) 0x1F);
                  char_at tbl (Z.land acc 0x1F)] in
      encode_bulk tbl head' (b ++ buf) (outlen + 8)%nat
  | _ => (head, b, outlen)
  end.

(** "Load remaining bytes into accumulator" ([uint32_t acc], [int nbits]). *)
Fixpoint load_tail (head : list byte) (acc : Z) (nbits : nat) : Z * nat :=
  match head with
  | [] => (acc, nbits)
  | h :: head' =>
      load_tail head' (Z.lor (uint32 (Z.shiftl acc 8)) (Z_of_byte h))
                (nbits + 8)%nat
  end.

(** "Extract all complete 5-bit groups":
    [while (nbits >= 5) { nbits -= 5; luaL_addchar(...); outlen++; }] *)
Fixpoint extract_groups (tbl : list byte) (acc : Z) (nbits : nat)
    (b : list byte) (outlen : nat) : nat * list byte * nat :=
  match nbits with
  | S (S (S (S (S n)))) =>
      extract_groups tbl acc n
        (b ++ [char_at tbl (Z.land (Z.shiftr acc (Z.of_nat n)) 0x1F)])
        (S outlen)
  | _ => (nbits, b, outlen)
  end.

(** "Handle remaining bytes (1-4 bytes)" *)
Definition encode_tail (tbl : list byte) (head : list byte) (b : list byte)
    (outlen : nat) : list byte * nat :=
  match head with
  | [] => (b, outlen)
  | _ :: _ =>
      let '(acc, nbits) := load_tail head 0 0 in
      let '(nbits, b, outlen) := extract_groups tbl acc nbits b outlen in
      (* Handle remaining bits (if any) *)
      if (0 <? nbits)%nat then
        (b ++ [char_at tbl
                 (Z.land (uint32 (Z.shiftl acc (5 - Z.of_nat nbits))) 0x1F)],
         S outlen)
      else (b, outlen)
  end.

Definition PAD : list byte := bytes "========".

(** The symbols written by the two loops, with their count [outlen]. *)
Definition encode_symbols (opt : format) (src : list byte) : list byte * nat :=
  let tbl := encode_table opt in
  let '(head, b, outlen) := encode_bulk tbl src [] 0 in
  encode_tail tbl head b outlen.

Definition encode_lua (src : list byte) (opt : format) : list byte :=
  (* If the input string is empty, return empty string *)
  if (List.length src =? 0)%nat then []
  else
    let '(b, outlen) := encode_symbols opt src in
    (* Add padding for RFC Base32 format *)
    if is_rfc opt && negb (outlen mod 8 =? 0)%nat then
      let padding_len := (8 - outlen mod 8)%nat in
      b ++ firstn padding_len PAD
    else b.

(** ** Notions used to state the properties *)

(** Number of ['='] characters at the front of a list; on the reversed
    input this is the length of its trailing run of ['=']. *)
Fixpoint leading_pads (l : list byte) : nat :=
  match l with
  | c :: l' => if Byte.eqb c "="%byte then S (leading_pads l') else O
  | [] => O
  end.

Definition trailing_pads (src : list byte) : nat := leading_pads (rev src).

(** A character the scan of [decode_loop] goes past: the skipped ['-'] of
    the Crockford format, or a character whose table entry is at most 31. *)
Definition accepts (opt : format) (c : byte) : bool :=
  (Byte.eqb c "-"%byte && is_crockford opt)
  || negb (31 <? tbl_at (decode_table opt) c).

(** An input that passes every check of [decode_lua]. *)
Definition well_formed (opt : format) (src : list byte) : Prop :=
  match opt with
  | rfc =>
      (List.length src mod 8 = 0)%nat /\
      bad_npad (trailing_pads src) = false /\
      Forall (fun c => accepts rfc c = true)
             (firstn (List.length src - trailing_pads src) src)
  | crockford => Forall (fun c => accepts crockford c = true) src
  end.

Definition remove_hyphens (src : list byte) : list byte :=
  filter (fun c => negb (Byte.eqb c "-"%byte)) src.

(** The value of [len] when [decode_lua] reaches its scan. *)
Definition scanned_len (opt : format) (src : list byte) : nat :=
  match opt with
  | rfc => (List.length src - trailing_pads src)%nat
  | crockford => List.length src
  end.

(** The bits left in the accumulator when [decode_lua] returns its result:
    how many, and their value. *)
Definition leftover_bits (opt : format) (src : list byte) (len : nat)
  : option (nat * Z) :=
  match decode_loop opt (firstn len src) 0 0 0 [] with
  | inl _ => None
  | inr (acc, nbits, b) =>
      let n := fst (drain acc nbits b) in
      Some (n, Z.land acc (Z.ones (Z.of_nat n)))
  end.

(** [ceil (len * 8 / 5)], the number of 5-bit groups covering [len] bytes. *)
Definition symbol_count (len : nat) : nat := ((len * 8 + 4) / 5)%nat.

(** Number of ['='] that bring [count] symbols to a multiple of 8. *)
Definition pad_count (opt : format) (count : nat) : nat :=
  match opt with
  | rfc => if (count mod 8 =? 0)%nat then 0%nat else (8 - count mod 8)%nat
  | crockford => 0%nat
  end.

(** Index [n] of the encode alphabet decodes to [n], and its character is
    neither ['-'] nor ['=']. *)
Definition sym_ok (opt : format) (n : nat) : bool :=
  let c := char_at (encode_table opt) (Z.of_nat n) in
  (tbl_at (decode_table opt) c =? Z.of_nat n) &&
  negb (Byte.eqb c "-"%byte) && negb (Byte.eqb c "="%byte).

(** The 40-bit accumulator loaded by the bulk loop of [encode_lua]. *)
Definition word40 (h0 h1 h2 h3 h4 : byte) : Z :=
  Z.lor (Z.lor (Z.lor (Z.lor (Z.shiftl (Z_of_byte h0) 32)
                             (Z.shiftl (Z_of_byte h1) 24))
                      (Z.shiftl (Z_of_byte h2) 16))
               (Z.shiftl (Z_of_byte h3) 8))
        (Z_of_byte h4).

(** The 8 characters the bulk loop writes for accumulator [acc]. *)
Definition group8 (tbl : list byte) (acc : Z) : list byte :=
  [char_at tbl (Z.land (Z.shiftr acc 35) 0x1F);
   char_at tbl (Z.land (Z.shiftr acc 30) 0x1F);
   char_at tbl (Z.land (Z.shiftr acc 25) 0x1F);
   char_at tbl (Z.land (Z.shiftr acc 20) 0x1F);
   char_at tbl (Z.land (Z.shiftr acc 15) 0x1F);
   char_at tbl (Z.land (Z.shiftr acc 10) 0x1F);
   char_at tbl (Z.land (Z.shiftr acc 5) 0x1F);
   char_at tbl (Z.land acc 0x1F)].

(** ** Notions used by the further properties *)

(** A character the scan passes over without reading bits from it. *)
Definition skipped (opt : format) (c : byte) : bool :=
  Byte.eqb c "-"%byte && is_crockford opt.

(** Number of characters of [src] that each bring 5 bits. *)
Definition data_count (opt : format) (src : list byte) : nat :=
  List.length (filter (fun c => negb (skipped opt c)) src).

Definition in_range (lo hi c : byte) : bool :=
  (Z_of_byte lo <=? Z_of_byte c) && (Z_of_byte c <=? Z_of_byte hi).

(** ASCII case conversion. *)
Definition to_upper (c : byte) : byte :=
  if in_range "a" "z" c then to_char (Z_of_byte c - 32) else c.

Definition to_lower (c : byte) : byte :=
  if in_range "A" "Z" c then to_char (Z_of_byte c + 32) else c.

(** The RFC 4648 value of a character, by ranges: letters of either case
    count from 0, the digits '2'-'7' from 26, anything else is invalid. *)
Definition rfc_value (c : byte) : Z :=
  if in_range "A" "Z" c then Z_of_byte c - Z_of_byte "A"
  else if in_range "a" "z" c then Z_of_byte c - Z_of_byte "a"
  else if in_range "2" "7" c then Z_of_byte c - Z_of_byte "2" + 26
  else 0xFF.

(** Crockford's value of a character: digits are themselves; a letter, in
    either case, is 1 for I and L, 0 for O, invalid for U, and otherwise
    its rank among the letters without I, L, O, U, counted from 10. *)
Definition crockford_value (c : byte) : Z :=
  let u := to_upper c in
  let after (l : byte) : Z := if Z_of_byte l <? Z_of_byte u then 1 else 0 in
  if in_range "0" "9" u then Z_of_byte u - Z_of_byte "0"
  else if in_range "A" "Z" u then
    if Byte.eqb u "I" || Byte.eqb u "L" then 1
    else if Byte.eqb u "O" then 0
    else if Byte.eqb u "U" then 0xFF
    else 10 + (Z_of_byte u - Z_of_byte "A")
         - after "I"%byte - after "L"%byte - after "O"%byte - after "U"%byte
  else 0xFF.

(** Crockford's substitutes for digits: I, i, L, l read as '1' and O, o
    read as '0'. *)
Definition crockford_alias (c : byte) : byte :=
  if Byte.eqb c "I" || Byte.eqb c "i" || Byte.eqb c "L" || Byte.eqb c "l"
  then "1"%byte
  else if Byte.eqb c "O" || Byte.eqb c "o" then "0"%byte
  else c.

(** The character that [encode_lua] writes for the value of [c]: the upper
    case letter, and in the Crockford format the digit for I, L and O. *)
Definition canonical (opt : format) (c : byte) : byte :=
  match opt with
  | rfc => to_upper c
  | crockford => to_upper (crockford_alias c)
  end.

(** The big-endian number made of the bytes of [head], without any
    truncation. *)
Definition be_value (head : list byte) : Z :=
  fold_left (fun acc h => Z.lor (Z.shiftl acc 8) (Z_of_byte h)) head 0.

(** A result with the character of an [IllegalCharacter] error renamed. *)
Definition map_illegal (f : byte -> byte) (r : result) : result :=
  match r with
  | Err (IllegalCharacter c pos) => Err (IllegalCharacter (f c) pos)
  | _ => r
  end.

(** The number of ['='] that [encode_lua] writes in the RFC format after
    an input of [len] bytes. *)
Definition rfc_padding (len : nat) : nat :=
  nth (len mod 5) [0; 6; 4; 3; 1]%nat 0%nat.

(** * Proofs *)

(** ** Test vectors *)

Example encode_foobar :
  encode_lua (bytes "foobar") rfc = bytes "MZXW6YTBOI======".
Proof. vm_compute. reflexivity. Qed.

Example decode_foobar :
  decode_lua (bytes "MZXW6YTBOI======") rfc = Ok (bytes "foobar").
Proof. vm_compute. reflexivity. Qed.

Example decode_crockford_sample :
  decode_lua (bytes "91JP") crockford = Ok (bytes "He").
Proof. vm_compute. reflexivity. Qed.

(** ** Bytes and table entries *)

Lemma Z_of_byte_range (b : byte) : 0 <= Z_of_byte b < 2 ^ 8.
Proof.
  unfold Z_of_byte. pose proof (Byte.to_N_bounded b).
  change (2 ^ 8) with 256. lia.
Qed.

Lemma to_char_Z_of_byte (b : byte) : to_char (Z_of_byte b) = b.
Proof.
  unfold to_char, uint8. rewrite Z.mod_small by apply Z_of_byte_range.
  unfold Z_of_byte. rewrite N2Z.id, Byte.of_to_N. reflexivity.
Qed.

Lemma to_char_eq (z : Z) (b : byte) : z = Z_of_byte b -> to_char z = b.
Proof. intros ->. apply to_char_Z_of_byte. Qed.

Lemma Z_of_byte_mod (b : byte) : Z_of_byte b = Z_of_byte b mod 2 ^ 8.
Proof. symmetry. apply Z.mod_small, Z_of_byte_range. Qed.

Lemma byte_eqb_refl (x : byte) : Byte.eqb x x = true.
Proof. now apply Byte.byte_dec_lb. Qed.

Lemma byte_eqb_neq (x y : byte) : Byte.eqb x y = false <-> x <> y.
Proof.
  split.
  - apply Byte.eqb_false.
  - intros H. destruct (Byte.eqb x y) eqn:E; [|reflexivity].
    apply Byte.byte_dec_bl in E. contradiction.
Qed.

Lemma land_1F_range (z : Z) : 0 <= Z.land z 0x1F < 32.
Proof.
  change 0x1F with (Z.ones 5). rewrite Z.land_ones by lia.
  change 32 with (2 ^ 5). apply Z.mod_pos_bound. reflexivity.
Qed.

Lemma sym_ok_all (opt : format) : forallb (sym_ok opt) (seq 0 32) = true.
Proof. destruct opt; vm_compute; reflexivity. Qed.

Lemma sym_decodes (opt : format) (k : Z) :
  0 <= k < 32 ->
  let c := char_at (encode_table opt) k in
  tbl_at (decode_table opt) c = k /\
  Byte.eqb c "-"%byte = false /\ Byte.eqb c "="%byte = false.
Proof.
  intros Hk c.
  assert (Hin : In (Z.to_nat k) (seq 0 32)) by (apply in_seq; lia).
  pose proof (proj1 (forallb_forall _ _) (sym_ok_all opt) _ Hin) as H.
  unfold sym_ok in H. rewrite Z2Nat.id in H by lia. fold c in H.
  apply andb_prop in H as [H H3]. apply andb_prop in H as [H1 H2].
  apply Z.eqb_eq in H1. apply negb_true_iff in H2, H3. auto.
Qed.

Lemma encode_table_length (opt : format) :
  List.length (encode_table opt) = 32%nat.
Proof. destruct opt; reflexivity. Qed.

Lemma char_at_in (opt : format) (z : Z) :
  In (char_at (encode_table opt) (Z.land z 0x1F)) (encode_table opt).
Proof.
  unfold char_at. apply nth_In. rewrite encode_table_length.
  pose proof (land_1F_range z). lia.
Qed.

Lemma alphabet_no_pad (opt : format) (c : byte) :
  In c (encode_table opt) -> Byte.eqb c "="%byte = false.
Proof.
  intros H. apply (In_nth _ _ x00) in H as (n & Hn & <-).
  rewrite encode_table_length in Hn.
  destruct (sym_decodes opt (Z.of_nat n)) as (_ & _ & E); [lia|].
  unfold char_at in E. rewrite Nat2Z.id in E. exact E.
Qed.

Lemma alphabet_no_hyphen (opt : format) (c : byte) :
  In c (encode_table opt) -> Byte.eqb c "-"%byte = false.
Proof.
  intros H. apply (In_nth _ _ x00) in H as (n & Hn & <-).
  rewrite encode_table_length in Hn.
  destruct (sym_decodes opt (Z.of_nat n)) as (_ & E & _); [lia|].
  unfold char_at in E. rewrite Nat2Z.id in E. exact E.
Qed.

(** ** Bit-level facts *)

Ltac bits :=
  Z.bitblast; Z.bitblast_core;
  repeat match goal with
    | |- context [Z.testbit ?a ?l] => rewrite (Z.testbit_neg_r a l) by lia
    end;
  try (exfalso; lia); try btauto.

Ltac split_all := repeat match goal with |- _ /\ _ => split end.

Ltac by_computation := vm_compute; reflexivity.

Ltac bytes_as_mod :=
  repeat match goal with
    | |- context [Z_of_byte ?h] =>
        rewrite (Z_of_byte_mod h); generalize (Z_of_byte h); intro
    end.

Lemma word40_mod (h0 h1 h2 h3 h4 : byte) :
  word40 h0 h1 h2 h3 h4 = word40 h0 h1 h2 h3 h4 mod 2 ^ 40.
Proof. unfold word40. bytes_as_mod. bits. Qed.

Lemma word40_bytes (h0 h1 h2 h3 h4 : byte) (acc : Z) :
  acc = word40 h0 h1 h2 h3 h4 ->
  [to_char (Z.land (Z.shiftr acc 32) 0xFF);
   to_char (Z.land (Z.shiftr acc 24) 0xFF);
   to_char (Z.land (Z.shiftr acc 16) 0xFF);
   to_char (Z.land (Z.shiftr acc 8) 0xFF);
   to_char (Z.land acc 0xFF)] = [h0; h1; h2; h3; h4].
Proof.
  intros ->. unfold word40. change 0xFF with (Z.ones 8).
  repeat (f_equal; try (apply to_char_eq; apply eq_sym)).
  - rewrite (Z_of_byte_mod h0) at 1. apply eq_sym. bytes_as_mod. bits.
  - rewrite (Z_of_byte_mod h1) at 1. apply eq_sym. bytes_as_mod. bits.
  - rewrite (Z_of_byte_mod h2) at 1. apply eq_sym. bytes_as_mod. bits.
  - rewrite (Z_of_byte_mod h3) at 1. apply eq_sym. bytes_as_mod. bits.
  - rewrite (Z_of_byte_mod h4) at 1. apply eq_sym. bytes_as_mod. bits.
Qed.

(** The 5-bit groups of a word of [w <= 40] bits, pushed most significant
    first into the decoder's accumulator, rebuild the word. *)
Section Groups.
Variables W w : Z.
Hypothesis Hw0 : 0 <= w.
Hypothesis Hw40 : w <= 40.

Lemma grp_first (n : Z) :
  0 <= n -> w = n + 5 ->
  Z.lor (uint64 (Z.shiftl 0 5)) (Z.land (Z.shiftr (W mod 2 ^ w) n) 0x1F)
  = Z.shiftr (W mod 2 ^ w) n.
Proof.
  intros Hn E. unfold uint64. change 0x1F with (Z.ones 5). bits.
Qed.

Lemma grp_next (n m : Z) :
  0 <= n -> m = n + 5 ->
  Z.lor (uint64 (Z.shiftl (Z.shiftr (W mod 2 ^ w) m) 5))
        (Z.land (Z.shiftr (W mod 2 ^ w) n) 0x1F)
  = Z.shiftr (W mod 2 ^ w) n.
Proof.
  intros Hn E. unfold uint64. change 0x1F with (Z.ones 5). bits.
Qed.

Lemma grp_last (m : Z) :
  m = 5 ->
  Z.lor (uint64 (Z.shiftl (Z.shiftr (W mod 2 ^ w) m) 5))
        (Z.land (W mod 2 ^ w) 0x1F)
  = W mod 2 ^ w.
Proof.
  intros ->. unfold uint64. change 0x1F with (Z.ones 5). bits.
Qed.

Lemma grp_empty : Z.shiftr (W mod 2 ^ w) w = 0.
Proof. bits. Qed.
End Groups.

(** The symbols written for a tail of [a] bits are the 5-bit groups of the
    tail shifted left by [r] bits, a word of [a + r] bits. *)
Section Tail.
Variables T a r : Z.
Hypothesis Ha : 0 <= a.
Hypothesis Hr : 0 <= r.

Lemma tail_group (n m : Z) :
  0 <= n -> m = n + r ->
  Z.land (Z.shiftr (T mod 2 ^ a) n) 0x1F
  = Z.land (Z.shiftr (Z.shiftl (T mod 2 ^ a) r mod 2 ^ (a + r)) m) 0x1F.
Proof. intros Hn ->. change 0x1F with (Z.ones 5). bits. Qed.

Lemma tail_last (s : Z) :
  s = r -> 5 <= a + r -> a + r <= 40 ->
  Z.land (uint32 (Z.shiftl (T mod 2 ^ a) s)) 0x1F
  = Z.land (Z.shiftl (T mod 2 ^ a) r mod 2 ^ (a + r)) 0x1F.
Proof.
  intros -> H1 H2. unfold uint32. change 0x1F with (Z.ones 5). bits.
Qed.

Lemma tail_byte (n m : Z) :
  0 <= n -> m = n + r ->
  Z.land (Z.shiftr (Z.shiftl (T mod 2 ^ a) r mod 2 ^ (a + r)) m) 0xFF
  = Z.land (Z.shiftr (T mod 2 ^ a) n) 0xFF.
Proof. intros Hn ->. change 0xFF with (Z.ones 8). bits. Qed.
End Tail.

(** ** One step of the decoder on a character produced by the encoder *)

Lemma decode_loop_sym (opt : format) (z : Z) rest i acc nbits b :
  decode_loop opt (char_at (encode_table opt) (Z.land z 0x1F) :: rest)
              i acc nbits b
  = let '(acc, nbits, b) := add5bits acc nbits b (Z.land z 0x1F) in
    decode_loop opt rest (S i) acc nbits b.
Proof.
  destruct (sym_decodes opt (Z.land z 0x1F) (land_1F_range z)) as (Ht & Hh & _).
  cbn [decode_loop]. rewrite Hh, Ht. cbn [andb].
  pose proof (land_1F_range z).
  destruct (Z.ltb_spec 31 (Z.land z 0x1F)); [lia|]. reflexivity.
Qed.

Lemma add5bits_hold acc nbits b dc :
  (nbits < 35)%nat ->
  add5bits acc nbits b dc
  = (Z.lor (uint64 (Z.shiftl acc 5)) dc, (nbits + 5)%nat, b).
Proof.
  intros H. unfold add5bits.
  destruct (Nat.leb_spec 40 (nbits + 5)); [lia|reflexivity].
Qed.

Ltac sym_step :=
  rewrite decode_loop_sym, add5bits_hold by (cbn [Nat.add]; lia).

(** Eight characters of the bulk loop give back its five bytes and leave
    the accumulator empty. *)
Lemma decode_loop_group8 (opt : format) (h0 h1 h2 h3 h4 : byte) rest i b :
  decode_loop opt
    (group8 (encode_table opt) (word40 h0 h1 h2 h3 h4) ++ rest) i 0 0 b
  = decode_loop opt rest (i + 8) 0 0 (b ++ [h0; h1; h2; h3; h4]).
Proof.
  pose proof (word40_bytes h0 h1 h2 h3 h4 _ eq_refl) as HB.
  pose proof (word40_mod h0 h1 h2 h3 h4) as HA.
  set (acc := word40 h0 h1 h2 h3 h4) in *. clearbody acc.
  unfold group8. cbn [app].
  rewrite HA in *.
  sym_step. rewrite grp_first by lia.
  do 6 (sym_step; rewrite grp_next by lia).
  rewrite decode_loop_sym. unfold add5bits. cbn [Nat.add Nat.leb Nat.sub].
  rewrite grp_last, grp_empty, HB by lia.
  f_equal. lia.
Qed.

(** ** The tail of 1 to 4 bytes *)

Ltac expose_tail :=
  cbn [fst snd encode_tail load_tail extract_groups Nat.add Nat.ltb Nat.leb
       app Z.of_nat Pos.of_succ_nat Pos.succ].

Ltac tail_byte_eq h :=
  unfold uint32; change 0xFF with (Z.ones 8); apply eq_sym;
  rewrite (Z_of_byte_mod h) at 1; apply eq_sym;
  bytes_as_mod; bits.

Lemma tail1 (opt : format) (h0 : byte) i b0 :
  exists acc nbits b,
    decode_loop opt (fst (encode_tail (encode_table opt) [h0] [] 0)) i 0 0 b0
    = inr (acc, nbits, b) /\
    snd (drain acc nbits b) = b0 ++ [h0].
Proof.
  expose_tail.
  set (T := Z.lor _ _).
  assert (HT : T = T mod 2 ^ 8)
    by (subst T; unfold uint32; bytes_as_mod; bits).
  assert (B0 : Z.land (Z.shiftr (T mod 2 ^ 8) 0) 0xFF = Z_of_byte h0)
    by (subst T; tail_byte_eq h0).
  clearbody T. rewrite HT.
  rewrite (tail_group T 8 2) with (n := 3) (m := 5) by lia.
  rewrite (tail_last T 8 2) by lia.
  sym_step. rewrite grp_first by lia.
  sym_step. rewrite grp_last by lia.
  cbn [decode_loop Nat.add].
  eexists _, _, _. split; [reflexivity|].
  cbn [drain snd Z.of_nat Pos.of_succ_nat Pos.succ].
  rewrite (tail_byte T 8 2) with (n := 0) (m := 2) by lia.
  rewrite B0, !to_char_Z_of_byte. reflexivity.
Qed.

Lemma tail2 (opt : format) (h0 h1 : byte) i b0 :
  exists acc nbits b,
    decode_loop opt (fst (encode_tail (encode_table opt) [h0; h1] [] 0))
                i 0 0 b0
    = inr (acc, nbits, b) /\
    snd (drain acc nbits b) = b0 ++ [h0; h1].
Proof.
  expose_tail.
  set (T := Z.lor _ _).
  assert (HT : T = T mod 2 ^ 16)
    by (subst T; unfold uint32; bytes_as_mod; bits).
  assert (B0 : Z.land (Z.shiftr (T mod 2 ^ 16) 8) 0xFF = Z_of_byte h0)
    by (subst T; tail_byte_eq h0).
  assert (B1 : Z.land (Z.shiftr (T mod 2 ^ 16) 0) 0xFF = Z_of_byte h1)
    by (subst T; tail_byte_eq h1).
  clearbody T. rewrite HT.
  rewrite (tail_group T 16 4) with (n := 11) (m := 15) by lia.
  rewrite (tail_group T 16 4) with (n := 6) (m := 10) by lia.
  rewrite (tail_group T 16 4) with (n := 1) (m := 5) by lia.
  rewrite (tail_last T 16 4) by lia.
  sym_step. rewrite grp_first by lia.
  do 2 (sym_step; rewrite grp_next by lia).
  sym_step. rewrite grp_last by lia.
  cbn [decode_loop Nat.add].
  eexists _, _, _. split; [reflexivity|].
  cbn [drain snd Z.of_nat Pos.of_succ_nat Pos.succ].
  rewrite (tail_byte T 16 4) with (n := 8) (m := 12) by lia.
  rewrite (tail_byte T 16 4) with (n := 0) (m := 4) by lia.
  rewrite B0, B1, !to_char_Z_of_byte.
  rewrite <- !app_assoc. reflexivity.
Qed.

Lemma tail3 (opt : format) (h0 h1 h2 : byte) i b0 :
  exists acc nbits b,
    decode_loop opt (fst (encode_tail (encode_table opt) [h0; h1; h2] [] 0))
                i 0 0 b0
    = inr (acc, nbits, b) /\
    snd (drain acc nbits b) = b0 ++ [h0; h1; h2].
Proof.
  expose_tail.
  set (T := Z.lor _ _).
  assert (HT : T = T mod 2 ^ 24)
    by (subst T; unfold uint32; bytes_as_mod; bits).
  assert (B0 : Z.land (Z.shiftr (T mod 2 ^ 24) 16) 0xFF = Z_of_byte h0)
    by (subst T; tail_byte_eq h0).
  assert (B1 : Z.land (Z.shiftr (T mod 2 ^ 24) 8) 0xFF = Z_of_byte h1)
    by (subst T; tail_byte_eq h1).
  assert (B2 : Z.land (Z.shiftr (T mod 2 ^ 24) 0) 0xFF = Z_of_byte h2)
    by (subst T; tail_byte_eq h2).
  clearbody T. rewrite HT.
  rewrite (tail_group T 24 1) with (n := 19) (m := 20) by lia.
  rewrite (tail_group T 24 1) with (n := 14) (m := 15) by lia.
  rewrite (tail_group T 24 1) with (n := 9) (m := 10) by lia.
  rewrite (tail_group T 24 1) with (n := 4) (m := 5) by lia.
  rewrite (tail_last T 24 1) by lia.
  sym_step. rewrite grp_first by lia.
  do 3 (sym_step; rewrite grp_next by lia).
  sym_step. rewrite grp_last by lia.
  cbn [decode_loop Nat.add].
  eexists _, _, _. split; [reflexivity|].
  cbn [drain snd Z.of_nat Pos.of_succ_nat Pos.succ].
  rewrite (tail_byte T 24 1) with (n := 16) (m := 17) by lia.
  rewrite (tail_byte T 24 1) with (n := 8) (m := 9) by lia.
  rewrite (tail_byte T 24 1) with (n := 0) (m := 1) by lia.
  rewrite B0, B1, B2, !to_char_Z_of_byte.
  rewrite <- !app_assoc. reflexivity.
Qed.

Lemma tail4 (opt : format) (h0 h1 h2 h3 : byte) i b0 :
  exists acc nbits b,
    decode_loop opt
      (fst (encode_tail (encode_table opt) [h0; h1; h2; h3] [] 0)) i 0 0 b0
    = inr (acc, nbits, b) /\
    snd (drain acc nbits b) = b0 ++ [h0; h1; h2; h3].
Proof.
  expose_tail.
  set (T := Z.lor _ _).
  assert (HT : T = T mod 2 ^ 32)
    by (subst T; unfold uint32; bytes_as_mod; bits).
  assert (B0 : Z.land (Z.shiftr (T mod 2 ^ 32) 24) 0xFF = Z_of_byte h0)
    by (subst T; tail_byte_eq h0).
  assert (B1 : Z.land (Z.shiftr (T mod 2 ^ 32) 16) 0xFF = Z_of_byte h1)
    by (subst T; tail_byte_eq h1).
  assert (B2 : Z.land (Z.shiftr (T mod 2 ^ 32) 8) 0xFF = Z_of_byte h2)
    by (subst T; tail_byte_eq h2).
  assert (B3 : Z.land (Z.shiftr (T mod 2 ^ 32) 0) 0xFF = Z_of_byte h3)
    by (subst T; tail_byte_eq h3).
  clearbody T. rewrite HT.
  rewrite (tail_group T 32 3) with (n := 27) (m := 30) by lia.
  rewrite (tail_group T 32 3) with (n := 22) (m := 25) by lia.
  rewrite (tail_group T 32 3) with (n := 17) (m := 20) by lia.
  rewrite (tail_group T 32 3) with (n := 12) (m := 15) by lia.
  rewrite (tail_group T 32 3) with (n := 7) (m := 10) by lia.
  rewrite (tail_group T 32 3) with (n := 2) (m := 5) by lia.
  rewrite (tail_last T 32 3) by lia.
  sym_step. rewrite grp_first by lia.
  do 5 (sym_step; rewrite grp_next by lia).
  sym_step. rewrite grp_last by lia.
  cbn [decode_loop Nat.add].
  eexists _, _, _. split; [reflexivity|].
  cbn [drain snd Z.of_nat Pos.of_succ_nat Pos.succ].
  rewrite (tail_byte T 32 3) with (n := 24) (m := 27) by lia.
  rewrite (tail_byte T 32 3) with (n := 16) (m := 19) by lia.
  rewrite (tail_byte T 32 3) with (n := 8) (m := 11) by lia.
  rewrite (tail_byte T 32 3) with (n := 0) (m := 3) by lia.
  rewrite B0, B1, B2, B3, !to_char_Z_of_byte.
  rewrite <- !app_assoc. reflexivity.
Qed.

(** ** Structure of the encoder's output *)

(** Induction five elements at a time, the way the bulk loop reads. *)
Lemma list_ind5 (A : Type) (P : list A -> Prop) :
  (forall l, (List.length l < 5)%nat -> P l) ->
  (forall a b c d e l, P l -> P (a :: b :: c :: d :: e :: l)) ->
  forall l, P l.
Proof.
  intros Hshort Hstep.
  fix IH 1. intros l.
  destruct l as [|a [|b [|c [|d [|e l']]]]];
    try (apply Hshort; cbn; lia).
  apply Hstep, IH.
Qed.

Lemma encode_bulk_short (tbl l b : list byte) (n : nat) :
  (List.length l < 5)%nat -> encode_bulk tbl l b n = (l, b, n).
Proof.
  intros H. destruct l as [|h0 [|h1 [|h2 [|h3 [|h4 l']]]]];
    try reflexivity.
  cbn in H. lia.
Qed.

Lemma encode_bulk_cons5 tbl h0 h1 h2 h3 h4 l b n :
  encode_bulk tbl (h0 :: h1 :: h2 :: h3 :: h4 :: l) b n
  = encode_bulk tbl l (b ++ group8 tbl (word40 h0 h1 h2 h3 h4)) (n + 8).
Proof. reflexivity. Qed.

Lemma encode_bulk_acc (tbl : list byte) (src : list byte) :
  forall b n,
    encode_bulk tbl src b n
    = let '(h, b', n') := encode_bulk tbl src [] 0 in
      (h, b ++ b', (n + n')%nat).
Proof.
  induction src as [l Hl | h0 h1 h2 h3 h4 l IH] using list_ind5; intros b n.
  - rewrite !encode_bulk_short by assumption.
    now rewrite app_nil_r, Nat.add_0_r.
  - rewrite !encode_bulk_cons5.
    rewrite (IH (b ++ _)), (IH ([] ++ _)).
    destruct (encode_bulk tbl l [] 0) as [[h b'] n'].
    cbn [app]. rewrite <- app_assoc. f_equal. lia.
Qed.

Lemma encode_bulk_head (tbl : list byte) (src : list byte) :
  forall b n,
    (List.length (fst (fst (encode_bulk tbl src b n))) < 5)%nat.
Proof.
  induction src as [l Hl | h0 h1 h2 h3 h4 l IH] using list_ind5; intros b n.
  - now rewrite encode_bulk_short.
  - rewrite encode_bulk_cons5. apply IH.
Qed.

Lemma encode_tail_acc (tbl head b : list byte) (n : nat) :
  (List.length head < 5)%nat ->
  encode_tail tbl head b n
  = (b ++ fst (encode_tail tbl head [] 0),
     (n + snd (encode_tail tbl head [] 0))%nat).
Proof.
  intros H. destruct head as [|h0 [|h1 [|h2 [|h3 [|h4 l']]]]];
    try (cbn in H; lia); expose_tail;
    rewrite <- ?app_assoc, ?app_nil_r; cbn [app];
    (apply f_equal2; [reflexivity | lia]).
Qed.

Lemma encode_symbols_short (opt : format) (l : list byte) :
  (List.length l < 5)%nat ->
  encode_symbols opt l = encode_tail (encode_table opt) l [] 0.
Proof.
  intros H. unfold encode_symbols. now rewrite encode_bulk_short.
Qed.

Lemma encode_symbols_cons5 (opt : format) h0 h1 h2 h3 h4 l :
  encode_symbols opt (h0 :: h1 :: h2 :: h3 :: h4 :: l)
  = (group8 (encode_table opt) (word40 h0 h1 h2 h3 h4)
       ++ fst (encode_symbols opt l),
     (8 + snd (encode_symbols opt l))%nat).
Proof.
  unfold encode_symbols. rewrite encode_bulk_cons5, encode_bulk_acc.
  pose proof (encode_bulk_head (encode_table opt) l [] 0) as Hh.
  destruct (encode_bulk (encode_table opt) l [] 0) as [[h b'] n'].
  cbn [fst] in Hh. cbn [app Nat.add].
  rewrite encode_tail_acc by assumption.
  rewrite (encode_tail_acc _ h b') by assumption.
  cbn [fst snd]. rewrite <- app_assoc. f_equal.
Qed.

(** [outlen] counts the symbols written, and there are
    [ceil (len * 8 / 5)] of them, all taken from the alphabet. *)
Lemma encode_symbols_count (opt : format) (src : list byte) :
  snd (encode_symbols opt src) = List.length (fst (encode_symbols opt src)) /\
  snd (encode_symbols opt src) = symbol_count (List.length src).
Proof.
  unfold symbol_count.
  induction src as [l Hl | h0 h1 h2 h3 h4 l [IH1 IH2]] using list_ind5.
  - rewrite encode_symbols_short by assumption.
    destruct l as [|h0 [|h1 [|h2 [|h3 [|h4 l']]]]];
      try (cbn in Hl; lia); split; reflexivity.
  - rewrite encode_symbols_cons5. cbn [fst snd].
    rewrite length_app, <- IH1. split; [reflexivity|].
    rewrite IH2. cbn [List.length].
    replace (S (S (S (S (S (List.length l)))))  * 8 + 4)%nat
      with ((List.length l * 8 + 4) + 8 * 5)%nat by lia.
    rewrite Nat.div_add by lia. lia.
Qed.

Lemma encode_symbols_alphabet (opt : format) (src : list byte) :
  Forall (fun c => In c (encode_table opt)) (fst (encode_symbols opt src)).
Proof.
  induction src as [l Hl | h0 h1 h2 h3 h4 l IH] using list_ind5.
  - rewrite encode_symbols_short by assumption.
    destruct l as [|h0 [|h1 [|h2 [|h3 [|h4 l']]]]];
      try (cbn in Hl; lia); expose_tail;
      repeat constructor; apply char_at_in.
  - rewrite encode_symbols_cons5. cbn [fst].
    apply Forall_app. split; [|exact IH].
    unfold group8. repeat constructor; apply char_at_in.
Qed.

Lemma symbol_count_ceil (len : nat) :
  (len * 8 <= 5 * symbol_count len < len * 8 + 5)%nat.
Proof.
  unfold symbol_count.
  pose proof (Nat.div_mod_eq (len * 8 + 4) 5).
  pose proof (Nat.mod_upper_bound (len * 8 + 4) 5).
  lia.
Qed.

(** The symbol count modulo 8 is one of 0, 2, 4, 5, 7. *)
Lemma symbol_count_mod8 (len : nat) :
  let r := (symbol_count len mod 8)%nat in
  r = 0%nat \/ r = 2%nat \/ r = 4%nat \/ r = 5%nat \/ r = 7%nat.
Proof.
  unfold symbol_count. cbv zeta.
  pose proof (Nat.div_mod_eq (len * 8 + 4) 5).
  pose proof (Nat.mod_upper_bound (len * 8 + 4) 5).
  pose proof (Nat.div_mod_eq ((len * 8 + 4) / 5) 8).
  pose proof (Nat.mod_upper_bound ((len * 8 + 4) / 5) 8).
  lia.
Qed.

(** ** Decoding the encoder's symbols *)

Lemma decode_encode_symbols (opt : format) (src : list byte) :
  forall i b0,
  exists acc nbits b,
    decode_loop opt (fst (encode_symbols opt src)) i 0 0 b0
    = inr (acc, nbits, b) /\
    snd (drain acc nbits b) = b0 ++ src.
Proof.
  induction src as [l Hl | h0 h1 h2 h3 h4 l IH] using list_ind5; intros i b0.
  - rewrite encode_symbols_short by assumption.
    destruct l as [|h0 [|h1 [|h2 [|h3 [|h4 l']]]]];
      try (cbn in Hl; lia).
    + exists 0, 0%nat, b0. cbn. now rewrite app_nil_r.
    + apply tail1.
    + apply tail2.
    + apply tail3.
    + apply tail4.
  - rewrite encode_symbols_cons5. cbn [fst].
    rewrite decode_loop_group8.
    destruct (IH (i + 8)%nat (b0 ++ [h0; h1; h2; h3; h4]))
      as (acc & nbits & b & E1 & E2).
    exists acc, nbits, b. split; [exact E1|].
    rewrite E2, <- app_assoc. reflexivity.
Qed.

(** ** Padding removal *)

(** With [tail] at the end of the prefix [rev r], the loop removes the
    trailing run of ['='] of that prefix, unless the count passes 6. *)
Lemma strip_padding_rev (r : list byte) :
  forall suf npad,
    (npad <= 6)%nat ->
    strip_padding (rev r ++ suf) (List.length r) npad
    = if (6 <? npad + leading_pads r)%nat then None
      else Some ((List.length r - leading_pads r)%nat,
                 (npad + leading_pads r)%nat).
Proof.
  induction r as [|c r IH]; intros suf npad Hn.
  - cbn [strip_padding leading_pads List.length].
    rewrite Nat.add_0_r.
    destruct (Nat.ltb_spec 6 npad); [lia|reflexivity].
  - cbn [rev List.length strip_padding leading_pads].
    rewrite <- app_assoc. cbn [app].
    rewrite app_nth2 by (rewrite length_rev; lia).
    rewrite length_rev, Nat.sub_diag. cbn [nth].
    destruct (Byte.eqb c "="%byte).
    + destruct (Nat.ltb_spec 6 (S npad)) as [H|H].
      * destruct (Nat.ltb_spec 6 (npad + S (leading_pads r))); [reflexivity|lia].
      * rewrite IH by lia.
        replace (S npad + leading_pads r)%nat
          with (npad + S (leading_pads r))%nat by lia.
        destruct (6 <? npad + S (leading_pads r))%nat; [reflexivity|].
        reflexivity.
    + rewrite Nat.add_0_r.
      destruct (Nat.ltb_spec 6 npad); [lia|].
      now rewrite Nat.sub_0_r.
Qed.

Lemma strip_padding_spec (src : list byte) :
  strip_padding src (List.length src) 0
  = if (6 <? trailing_pads src)%nat then None
    else Some ((List.length src - trailing_pads src)%nat, trailing_pads src).
Proof.
  unfold trailing_pads.
  pose proof (strip_padding_rev (rev src) [] 0) as H.
  rewrite rev_involutive, app_nil_r, length_rev in H.
  apply H. lia.
Qed.

Lemma leading_pads_le (l : list byte) :
  (leading_pads l <= List.length l)%nat.
Proof.
  induction l as [|c l IH]; cbn; [lia|].
  destruct (Byte.eqb c "="%byte); lia.
Qed.

Lemma leading_pads_repeat (k : nat) (l : list byte) :
  leading_pads (repeat "="%byte k ++ l) = (k + leading_pads l)%nat.
Proof. induction k as [|k IH]; cbn; [reflexivity|]. now rewrite IH. Qed.

Lemma leading_pads_none (l : list byte) :
  Forall (fun c => Byte.eqb c "="%byte = false) l -> leading_pads l = 0%nat.
Proof. intros [|c l' Hc _]; cbn; [reflexivity|]. now rewrite Hc. Qed.

Lemma rev_repeat (k : nat) (c : byte) : rev (repeat c k) = repeat c k.
Proof.
  induction k as [|k IH]; [reflexivity|].
  cbn [repeat rev]. rewrite IH. symmetry. apply repeat_cons.
Qed.

Lemma trailing_pads_app_repeat (body : list byte) (k : nat) :
  Forall (fun c => Byte.eqb c "="%byte = false) body ->
  trailing_pads (body ++ repeat "="%byte k) = k.
Proof.
  intros H. unfold trailing_pads.
  rewrite rev_app_distr, rev_repeat, leading_pads_repeat.
  rewrite leading_pads_none; [lia|].
  apply Forall_rev. exact H.
Qed.

Lemma firstn_PAD (k : nat) :
  (k <= 8)%nat -> firstn k PAD = repeat "="%byte k.
Proof.
  intros H.
  do 9 (destruct k as [|k]; [reflexivity|]). lia.
Qed.

(** ** Outcome of the scan *)

Lemma decode_loop_error (opt : format) (src : list byte) :
  forall i acc nbits b e,
    decode_loop opt src i acc nbits b = inl e ->
    exists c pos, e = IllegalCharacter c pos.
Proof.
  induction src as [|c src IH]; intros i acc nbits b e H; cbn in H.
  - discriminate.
  - destruct (Byte.eqb c "-"%byte && is_crockford opt).
    + eauto.
    + destruct (31 <? tbl_at (decode_table opt) c).
      * inversion H. eauto.
      * destruct (add5bits acc nbits b (tbl_at (decode_table opt) c))
          as [[acc' nbits'] b']. eauto.
Qed.

Lemma decode_scan_error (opt : format) (src : list byte) (len : nat) (e : decode_error) :
  decode_scan opt src len = Err e -> exists c pos, e = IllegalCharacter c pos.
Proof.
  unfold decode_scan.
  destruct (decode_loop opt (firstn len src) 0 0 0 []) as [e'|[[acc nbits] b]] eqn:E.
  - intros H. inversion H. subst. eapply decode_loop_error, E.
  - discriminate.
Qed.

(** [decode_lua] in terms of the scan: the Crockford format scans the whole
    input; the RFC format scans what the padding checks leave. *)
Lemma decode_lua_crockford (src : list byte) :
  decode_lua src crockford = decode_scan crockford src (List.length src).
Proof.
  unfold decode_lua. destruct src; reflexivity.
Qed.

Lemma decode_lua_rfc (src : list byte) :
  src <> [] ->
  (List.length src mod 8 = 0)%nat ->
  decode_lua src rfc
  = if (6 <? trailing_pads src)%nat then Err InvalidPadding
    else if bad_npad (trailing_pads src) then Err InvalidPadding
    else decode_scan rfc src (List.length src - trailing_pads src).
Proof.
  intros Hne Hmod. unfold decode_lua.
  destruct src as [|c src']; [contradiction|].
  cbn [Nat.eqb List.length]. 
  change (S (List.length src')) with (List.length (c :: src')) in *.
  rewrite Hmod. cbn [Nat.eqb negb].
  rewrite strip_padding_spec.
  destruct (6 <? trailing_pads (c :: src'))%nat; reflexivity.
Qed.

(** ** Shape of the encoder's result *)

Lemma encode_lua_nil (opt : format) : encode_lua [] opt = [].
Proof. reflexivity. Qed.

Lemma encode_lua_shape (src : list byte) (opt : format) :
  encode_lua src opt
  = fst (encode_symbols opt src)
      ++ repeat "="%byte
           (pad_count opt (List.length (fst (encode_symbols opt src)))).
Proof.
  destruct src as [|c src'].
  - destruct opt; reflexivity.
  - unfold encode_lua. cbn [List.length Nat.eqb].
    destruct (encode_symbols_count opt (c :: src')) as [Hlen _].
    destruct (encode_symbols opt (c :: src')) as [b outlen].
    cbn [fst snd] in *. subst outlen.
    destruct opt; cbn [is_rfc andb pad_count].
    + destruct (List.length b mod 8 =? 0)%nat eqn:E; cbn [negb].
      * now rewrite app_nil_r.
      * rewrite firstn_PAD by lia. reflexivity.
    + now rewrite app_nil_r.
Qed.

(** ** The scan on accepted and on rejected characters *)

Lemma accepts_step (opt : format) (c : byte) rest i acc nbits b :
  accepts opt c = true ->
  decode_loop opt (c :: rest) i acc nbits b
  = if Byte.eqb c "-"%byte && is_crockford opt
    then decode_loop opt rest (S i) acc nbits b
    else let '(acc, nbits, b) :=
           add5bits acc nbits b (tbl_at (decode_table opt) c) in
         decode_loop opt rest (S i) acc nbits b.
Proof.
  unfold accepts. intros H. cbn [decode_loop].
  destruct (Byte.eqb c "-"%byte && is_crockford opt); [reflexivity|].
  cbn [orb] in H. apply negb_true_iff in H. now rewrite H.
Qed.

Lemma rejects_step (opt : format) (c : byte) rest i acc nbits b :
  accepts opt c = false ->
  decode_loop opt (c :: rest) i acc nbits b
  = inl (IllegalCharacter c (i + 1)).
Proof.
  unfold accepts. intros H. cbn [decode_loop].
  apply orb_false_iff in H as [H1 H2]. rewrite H1.
  apply negb_false_iff in H2. now rewrite H2.
Qed.

Lemma decode_loop_accepts (opt : format) (src : list byte) :
  Forall (fun c => accepts opt c = true) src ->
  forall i acc nbits b,
  exists acc' nbits' b',
    decode_loop opt src i acc nbits b = inr (acc', nbits', b').
Proof.
  induction 1 as [|c src Hc _ IH]; intros i acc nbits b.
  - cbn. eauto.
  - rewrite accepts_step by assumption.
    destruct (Byte.eqb c "-"%byte && is_crockford opt); [apply IH|].
    destruct (add5bits acc nbits b (tbl_at (decode_table opt) c))
      as [[acc1 nbits1] b1]. apply IH.
Qed.

Lemma decode_loop_first_illegal (opt : format) (pre : list byte) (c : byte) :
  Forall (fun c => accepts opt c = true) pre ->
  accepts opt c = false ->
  forall post i acc nbits b,
    decode_loop opt (pre ++ c :: post) i acc nbits b
    = inl (IllegalCharacter c (i + List.length pre + 1)).
Proof.
  intros Hpre Hc post.
  induction Hpre as [|d pre Hd _ IH]; intros i acc nbits b.
  - cbn [app List.length]. rewrite rejects_step by assumption.
    now rewrite Nat.add_0_r.
  - cbn [app List.length]. rewrite accepts_step by assumption.
    replace (i + S (List.length pre) + 1)%nat
      with (S i + List.length pre + 1)%nat by lia.
    destruct (Byte.eqb d "-"%byte && is_crockford opt); [apply IH|].
    destruct (add5bits acc nbits b (tbl_at (decode_table opt) d))
      as [[acc1 nbits1] b1]. apply IH.
Qed.

(** The drain loop leaves fewer than 8 bits. *)
Lemma drain_lt8 (nbits : nat) :
  forall acc b, (fst (drain acc nbits b) < 8)%nat.
Proof.
  induction nbits as [n IH] using lt_wf_ind. intros acc b.
  do 8 (destruct n as [|n]; [cbn; lia|]).
  cbn [drain]. apply IH. lia.
Qed.

(** Removing the ['-'] of a Crockford input changes neither the final
    state of the scan nor the character it rejects. *)
Lemma decode_loop_hyphens (src : list byte) :
  forall i j acc nbits b,
    match decode_loop crockford src i acc nbits b,
          decode_loop crockford (remove_hyphens src) j acc nbits b with
    | inr s1, inr s2 => s1 = s2
    | inl (IllegalCharacter c1 _), inl (IllegalCharacter c2 _) => c1 = c2
    | _, _ => False
    end.
Proof.
  induction src as [|c src IH]; intros i j acc nbits b.
  - reflexivity.
  - cbn [remove_hyphens filter decode_loop is_crockford].
    rewrite andb_true_r.
    destruct (Byte.eqb c "-"%byte) eqn:Eh; cbn [negb].
    + apply IH.
    + cbn [decode_loop is_crockford]. rewrite Eh. cbn [andb].
      destruct (31 <? tbl_at (decode_table crockford) c); [reflexivity|].
      destruct (add5bits acc nbits b (tbl_at (decode_table crockford) c))
        as [[acc1 nbits1] b1]. apply IH.
Qed.

Lemma leading_pads_stop (l1 : list byte) (c : byte) (l2 : list byte) :
  Byte.eqb c "="%byte = false ->
  leading_pads (l1 ++ c :: l2) = leading_pads l1.
Proof.
  intros Hc. induction l1 as [|d l1 IH]; cbn.
  - now rewrite Hc.
  - destruct (Byte.eqb d "="%byte); [now rewrite IH|reflexivity].
Qed.

(** A character after which a non-['='] follows, or that is itself not
    ['='], lies before the trailing run of ['=']. *)
Lemma trailing_pads_after (pre : list byte) (c : byte) (post : list byte) :
  Byte.eqb c "="%byte = false \/
  (exists d, In d post /\ Byte.eqb d "="%byte = false) ->
  (trailing_pads (pre ++ c :: post) <= List.length post)%nat.
Proof.
  unfold trailing_pads. intros [Hc | (d & Hin & Hd)].
  - rewrite rev_app_distr. cbn [rev]. rewrite <- !app_assoc. cbn [app].
    rewrite leading_pads_stop by assumption.
    rewrite <- length_rev. apply leading_pads_le.
  - apply in_split in Hin as (p1 & p2 & ->).
    replace (pre ++ c :: p1 ++ d :: p2) with ((pre ++ c :: p1) ++ d :: p2)
      by (now rewrite <- app_assoc).
    rewrite rev_app_distr. cbn [rev]. rewrite <- !app_assoc. cbn [app].
    rewrite leading_pads_stop by assumption.
    pose proof (leading_pads_le (rev p2)) as H.
    rewrite length_rev in H. rewrite length_app. cbn [List.length]. lia.
Qed.

Lemma firstn_keep (pre : list byte) (c : byte) (post : list byte) (k : nat) :
  (k <= List.length post)%nat ->
  firstn (List.length (pre ++ c :: post) - k) (pre ++ c :: post)
  = pre ++ c :: firstn (List.length post - k) post.
Proof.
  intros Hk. rewrite length_app. cbn [List.length].
  rewrite firstn_app.
  rewrite firstn_all2 by lia.
  replace (List.length pre + S (List.length post) - k - List.length pre)%nat
    with (S (List.length post - k)) by lia.
  reflexivity.
Qed.

(** The RFC decoder on an input whose first rejected character lies before
    the trailing padding run, once the length and padding checks pass. *)
Lemma decode_lua_rfc_illegal (pre : list byte) (c : byte) (post : list byte) :
  Forall (fun c => accepts rfc c = true) pre ->
  accepts rfc c = false ->
  (List.length (pre ++ c :: post) mod 8 = 0)%nat ->
  bad_npad (trailing_pads (pre ++ c :: post)) = false ->
  (trailing_pads (pre ++ c :: post) <= List.length post)%nat ->
  decode_lua (pre ++ c :: post) rfc
  = Err (IllegalCharacter c (List.length pre + 1)).
Proof.
  intros Hpre Hc Hlen Hbad Hk.
  rewrite decode_lua_rfc; [|now destruct pre|assumption].
  rewrite Hbad.
  destruct (Nat.ltb_spec 6 (trailing_pads (pre ++ c :: post))) as [H6|H6].
  { exfalso. revert Hbad H6.
    generalize (trailing_pads (pre ++ c :: post)). intros n.
    do 7 (destruct n as [|n]; [lia|]). discriminate. }
  unfold decode_scan. rewrite firstn_keep by assumption.
  now rewrite decode_loop_first_illegal.
Qed.

(** ** Further facts used by the claims *)

Lemma bad_npad_spec (n : nat) :
  bad_npad n = true <-> ~ In n [0; 1; 3; 4; 6]%nat.
Proof.
  do 7 (destruct n as [|n]; [cbn; intuition (discriminate || lia)|]).
  cbn. intuition lia.
Qed.

(** The trailing run of ['='] is what [trailing_pads] counts. *)
Lemma leading_pads_split (l : list byte) :
  exists rest,
    l = repeat "="%byte (leading_pads l) ++ rest /\ leading_pads rest = 0%nat.
Proof.
  induction l as [|c l (rest & E & Hr)].
  - exists []. split; reflexivity.
  - cbn [leading_pads]. destruct (Byte.eqb c "="%byte) eqn:Hc.
    + apply Byte.byte_dec_bl in Hc. subst c.
      exists rest. cbn [repeat app]. split; [now rewrite <- E|exact Hr].
    + exists (c :: l). split; [reflexivity|]. cbn. now rewrite Hc.
Qed.

Lemma trailing_pads_split (src : list byte) :
  exists body,
    src = body ++ repeat "="%byte (trailing_pads src) /\
    trailing_pads body = 0%nat.
Proof.
  unfold trailing_pads.
  destruct (leading_pads_split (rev src)) as (rest & E & Hr).
  exists (rev rest). split.
  - rewrite <- (rev_involutive src) at 1. rewrite E at 1.
    now rewrite rev_app_distr, rev_repeat.
  - now rewrite rev_involutive.
Qed.

Lemma decode_lua_well_formed (opt : format) (src : list byte) :
  well_formed opt src ->
  exists acc nbits b,
    decode_loop opt (firstn (scanned_len opt src) src) 0 0 0 []
    = inr (acc, nbits, b) /\
    decode_lua src opt = Ok (snd (drain acc nbits b)).
Proof.
  destruct opt; cbn [well_formed scanned_len].
  - intros (Hlen & Hbad & Hall).
    destruct (decode_loop_accepts rfc _ Hall 0%nat 0 0%nat [])
      as (acc & nbits & b & E).
    exists acc, nbits, b. split; [exact E|].
    destruct src as [|c src'].
    + cbn in E. injection E as <- <- <-. reflexivity.
    + rewrite decode_lua_rfc by (assumption || discriminate).
      rewrite Hbad.
      destruct (Nat.ltb_spec 6 (trailing_pads (c :: src'))) as [H6|H6].
      { exfalso. revert Hbad H6.
        generalize (trailing_pads (c :: src')). intros n.
        do 7 (destruct n as [|n]; [lia|]). discriminate. }
      unfold decode_scan. now rewrite E.
  - intros Hall. rewrite firstn_all.
    destruct (decode_loop_accepts crockford _ Hall 0%nat 0 0%nat [])
      as (acc & nbits & b & E).
    exists acc, nbits, b. split; [exact E|].
    rewrite decode_lua_crockford. unfold decode_scan.
    now rewrite firstn_all, E.
Qed.

Lemma decode_scan_hyphens (src : list byte) (out : list byte) :
  decode_scan crockford src (List.length src) = Ok out <->
  decode_scan crockford (remove_hyphens src)
              (List.length (remove_hyphens src)) = Ok out.
Proof.
  unfold decode_scan. rewrite !firstn_all.
  pose proof (decode_loop_hyphens src 0%nat 0%nat 0 0%nat []) as H.
  destruct (decode_loop crockford src 0 0 0 []) as [e1|[[a1 n1] b1]];
    destruct (decode_loop crockford (remove_hyphens src) 0 0 0 [])
      as [e2|[[a2 n2] b2]].
  - split; discriminate.
  - destruct e1; contradiction.
  - contradiction.
  - injection H as -> -> ->. reflexivity.
Qed.

Lemma encode_lua_crockford_alphabet (b : list byte) :
  Forall (fun c => In c CROCKFORD_ALPHABET) (encode_lua b crockford).
Proof.
  rewrite encode_lua_shape. cbn [pad_count repeat]. rewrite app_nil_r.
  apply (encode_symbols_alphabet crockford).
Qed.

(** * The claims *)

(** C1. Round trip: for every byte sequence [b] and both formats, decoding
    the encoding of [b] with the same format succeeds and returns exactly
    [b]. *)
Theorem decode_encode_roundtrip (b : list byte) (opt : format) :
  decode_lua (encode_lua b opt) opt = Ok b.
Proof.
  destruct (decode_encode_symbols opt b 0%nat []) as (acc & nbits & out & E1 & E2).
  cbn [app] in E2.
  rewrite encode_lua_shape.
  pose proof (encode_symbols_alphabet opt b) as Halpha.
  destruct (encode_symbols_count opt b) as [Hlen Hcount].
  set (syms := fst (encode_symbols opt b)) in *.
  rewrite Hlen in Hcount.
  destruct opt.
  - (* rfc *)
    destruct syms as [|s0 syms'] eqn:Hsyms.
    { cbn in E1. injection E1 as <- <- <-. cbn in E2. subst b. reflexivity. }
    rewrite <- Hsyms in *.
    assert (Hnopad : Forall (fun c => Byte.eqb c "="%byte = false) syms).
    { eapply Forall_impl; [|exact Halpha]. apply alphabet_no_pad. }
    pose proof (symbol_count_mod8 (List.length b)) as Hmod.
    cbv zeta in Hmod. rewrite <- Hcount in Hmod.
    set (p := pad_count rfc (List.length syms)).
    assert (Hp : ((List.length syms + p) mod 8 = 0)%nat /\
                 bad_npad p = false /\ (p <= 6)%nat).
    { subst p. unfold pad_count.
      pose proof (Nat.div_mod_eq (List.length syms) 8) as Hd.
      destruct Hmod as [H|[H|[H|[H|H]]]]; rewrite H in *;
        cbn [Nat.eqb Nat.sub bad_npad negb andb];
        (split; [|split; [reflexivity|lia]]).
      - now rewrite Nat.add_0_r.
      - replace (List.length syms + 6)%nat
          with (0 + (List.length syms / 8 + 1) * 8)%nat by lia.
        now rewrite Nat.Div0.mod_add.
      - replace (List.length syms + 4)%nat
          with (0 + (List.length syms / 8 + 1) * 8)%nat by lia.
        now rewrite Nat.Div0.mod_add.
      - replace (List.length syms + 3)%nat
          with (0 + (List.length syms / 8 + 1) * 8)%nat by lia.
        now rewrite Nat.Div0.mod_add.
      - replace (List.length syms + 1)%nat
          with (0 + (List.length syms / 8 + 1) * 8)%nat by lia.
        now rewrite Nat.Div0.mod_add. }
    destruct Hp as (Hp8 & Hbad & Hp6).
    rewrite decode_lua_rfc.
    + rewrite trailing_pads_app_repeat by assumption.
      destruct (Nat.ltb_spec 6 p); [lia|]. rewrite Hbad.
      rewrite length_app, repeat_length, Nat.add_sub.
      unfold decode_scan.
      rewrite firstn_app, firstn_all, Nat.sub_diag. cbn [firstn].
      rewrite app_nil_r, E1, E2. reflexivity.
    + rewrite Hsyms. discriminate.
    + now rewrite length_app, repeat_length.
  - (* crockford *)
    cbn [pad_count repeat]. rewrite app_nil_r.
    rewrite decode_lua_crockford. unfold decode_scan.
    rewrite firstn_all, E1, E2. reflexivity.
Qed.

(** C2, as stated, fails: on "MY!=====" the RFC decoder does not report
    the illegal character ['!'] at position 3. *)
Lemma illegal_character_example_refuted :
  decode_lua (bytes "MY!=====") rfc <> Err (IllegalCharacter "!"%byte 3).
Proof. vm_compute. discriminate. Qed.

(** C2, amended. "MY!=====" ends in five ['='], an illegal padding count,
    and the padding check comes before the scan: the result is
    [InvalidPadding].  With a legal padding count, as in "MY!A====", the
    decoder fails with [IllegalCharacter] carrying ['!'] and the 1-based
    position 3. *)
Theorem illegal_character_example :
  decode_lua (bytes "MY!=====") rfc = Err InvalidPadding /\
  decode_lua (bytes "MY!A====") rfc = Err (IllegalCharacter "!"%byte 3).
Proof. split; by_computation. Qed.

(** C3. For a non-empty input of the RFC format whose length is a multiple
    of 8, the result is [InvalidPadding] exactly when the trailing run of
    ['='] is longer than 6 or its length is not one of 0, 1, 3, 4, 6 --
    whatever the other characters are, since the run is removed from the
    end and checked before the scan. *)
Theorem invalid_padding_iff (src : list byte) :
  src <> [] ->
  (List.length src mod 8 = 0)%nat ->
  decode_lua src rfc = Err InvalidPadding <->
  (6 < trailing_pads src)%nat \/ ~ In (trailing_pads src) [0; 1; 3; 4; 6]%nat.
Proof.
  intros Hne Hlen. rewrite decode_lua_rfc by assumption.
  destruct (Nat.ltb_spec 6 (trailing_pads src)) as [H6|H6].
  - split; [intros _; now left|reflexivity].
  - destruct (bad_npad (trailing_pads src)) eqn:Hbad.
    + split; [intros _; right; now apply bad_npad_spec|reflexivity].
    + split.
      * intros H. apply decode_scan_error in H as (c & pos & H).
        discriminate.
      * intros [H|H]; [lia|].
        apply bad_npad_spec in H. congruence.
Qed.

Lemma invalid_padding_iff_witness :
  decode_lua (bytes "MZXW6Y==") rfc = Err InvalidPadding /\
  decode_lua (bytes "MZX=====") rfc = Err InvalidPadding /\
  decode_lua (bytes "MZXW6YQ=") rfc <> Err InvalidPadding.
Proof.
  split; [|split].
  - apply (invalid_padding_iff (bytes "MZXW6Y==")).
    + discriminate.
    + reflexivity.
    + right. vm_compute. intuition discriminate.
  - apply (invalid_padding_iff (bytes "MZX=====")).
    + discriminate.
    + reflexivity.
    + right. vm_compute. intuition discriminate.
  - intros H. apply (invalid_padding_iff (bytes "MZXW6YQ=")) in H.
    + vm_compute in H. destruct H as [H|H]; [lia|]. apply H. tauto.
    + discriminate.
    + reflexivity.
Defined.

(** C4. A non-empty input of the RFC format whose length is not a
    multiple of 8 gives [InvalidLength], whatever its characters and
    padding; the Crockford format never gives [InvalidLength], and inputs
    of every length decode. *)
Theorem invalid_length_check :
  (forall src : list byte,
      src <> [] -> (List.length src mod 8 <> 0)%nat ->
      decode_lua src rfc = Err InvalidLength) /\
  (forall src : list byte, decode_lua src crockford <> Err InvalidLength) /\
  (forall n : nat, exists src out,
      List.length src = n /\ decode_lua src crockford = Ok out).
Proof.
  split; [|split].
  - intros src Hne Hlen. unfold decode_lua.
    destruct src as [|c src']; [contradiction|].
    cbn [List.length Nat.eqb].
    change (S (List.length src')) with (List.length (c :: src')).
    destruct (Nat.eqb_spec (List.length (c :: src') mod 8) 0); [lia|].
    reflexivity.
  - intros src H. rewrite decode_lua_crockford in H.
    apply decode_scan_error in H as (c & pos & H). discriminate.
  - intros n.
    assert (Hwf : well_formed crockford (repeat "0"%byte n)).
    { cbn [well_formed]. apply Forall_forall. intros c Hc.
      apply repeat_spec in Hc. subst c. reflexivity. }
    destruct (decode_lua_well_formed _ _ Hwf) as (acc & nbits & b & _ & E).
    exists (repeat "0"%byte n), (snd (drain acc nbits b)).
    split; [apply repeat_length|exact E].
Qed.

Lemma invalid_length_check_witness :
  decode_lua (bytes "MY=====") rfc = Err InvalidLength.
Proof.
  apply (proj1 invalid_length_check (bytes "MY=====")).
  - discriminate.
  - vm_compute. discriminate.
Defined.

(** C5. RFC 4648 test vectors: the RFC-format encodings of "f", "fo",
    "foo", "foob", "fooba" and "foobar". *)
Theorem rfc4648_test_vectors :
  encode_lua (bytes "f") rfc = bytes "MY======" /\
  encode_lua (bytes "fo") rfc = bytes "MZXQ====" /\
  encode_lua (bytes "foo") rfc = bytes "MZXW6===" /\
  encode_lua (bytes "foob") rfc = bytes "MZXW6YQ=" /\
  encode_lua (bytes "fooba") rfc = bytes "MZXW6YTB" /\
  encode_lua (bytes "foobar") rfc = bytes "MZXW6YTBOI======".
Proof. split_all; by_computation. Qed.

(** C6. [encode_lua] is a total function; for every input and format its
    result is [ceil (len * 8 / 5)] symbols of the alphabet, followed, for
    the RFC format only and when that count is not a multiple of 8, by
    exactly [8 - count mod 8] characters ['=']; Crockford output carries
    no padding (['='] is in neither alphabet). *)
Theorem encode_output_shape (src : list byte) (opt : format) :
  exists syms : list byte,
    encode_lua src opt
    = syms ++ repeat "="%byte (pad_count opt (List.length syms)) /\
    List.length syms = symbol_count (List.length src) /\
    (List.length src * 8 <= 5 * List.length syms < List.length src * 8 + 5)%nat /\
    Forall (fun c => In c (encode_table opt)) syms /\
    ~ In "="%byte (encode_table opt) /\
    pad_count crockford (List.length syms) = 0%nat /\
    pad_count rfc (List.length syms)
    = (if (List.length syms mod 8 =? 0)%nat then 0
       else 8 - List.length syms mod 8)%nat.
Proof.
  exists (fst (encode_symbols opt src)).
  destruct (encode_symbols_count opt src) as [Hlen Hcount].
  split_all; try reflexivity.
  - apply encode_lua_shape.
  - now rewrite <- Hlen.
  - rewrite <- Hlen, Hcount. apply symbol_count_ceil.
  - rewrite <- Hlen, Hcount. apply symbol_count_ceil.
  - apply encode_symbols_alphabet.
  - intros H. apply alphabet_no_pad in H. discriminate.
Qed.

(** C7. The Crockford decode table maps '0'-'9' to 0-9, treats upper and
    lower case letters alike, maps I, i, L, l to 1 and O, o to 0, maps the
    other letters to 10-31 in order (I, L, O, U left out), and holds the
    invalid mark 0xFF for U and u; so "O" decodes like "0", and a 'U' or
    'u' reached by the scan makes the Crockford decoder fail with
    [IllegalCharacter] for it, as in [decode "U"]. *)
Theorem crockford_decode_table :
  map (tbl_at CROCKFORD_DECODE_TABLE) (bytes "0123456789")
  = [0; 1; 2; 3; 4; 5; 6; 7; 8; 9] /\
  map (tbl_at CROCKFORD_DECODE_TABLE) (bytes "ABCDEFGHIJKLMNOPQRSTUVWXYZ")
  = map (tbl_at CROCKFORD_DECODE_TABLE) (bytes "abcdefghijklmnopqrstuvwxyz") /\
  map (tbl_at CROCKFORD_DECODE_TABLE) (bytes "IiLl") = [1; 1; 1; 1] /\
  map (tbl_at CROCKFORD_DECODE_TABLE) (bytes "Oo") = [0; 0] /\
  map (tbl_at CROCKFORD_DECODE_TABLE) (bytes "ABCDEFGHJKMNPQRSTVWXYZ")
  = [10; 11; 12; 13; 14; 15; 16; 17; 18; 19; 20; 21; 22; 23; 24; 25; 26;
     27; 28; 29; 30; 31] /\
  map (tbl_at CROCKFORD_DECODE_TABLE) (bytes "Uu") = [0xFF; 0xFF] /\
  decode_lua (bytes "O") crockford = decode_lua (bytes "0") crockford /\
  decode_lua (bytes "U") crockford = Err (IllegalCharacter "U"%byte 1) /\
  decode_lua (bytes "u") crockford = Err (IllegalCharacter "u"%byte 1) /\
  (forall (pre post : list byte) (c : byte),
      c = "U"%byte \/ c = "u"%byte ->
      Forall (fun d => accepts crockford d = true) pre ->
      decode_lua (pre ++ c :: post) crockford
      = Err (IllegalCharacter c (List.length pre + 1))).
Proof.
  split_all; [by_computation .. |].
  intros pre post c Hc Hpre.
  rewrite decode_lua_crockford. unfold decode_scan. rewrite firstn_all.
  rewrite decode_loop_first_illegal; [reflexivity|assumption|].
  destruct Hc as [-> | ->]; reflexivity.
Qed.

Lemma crockford_decode_table_witness :
  decode_lua (bytes "91JP" ++ "U"%byte :: bytes "0") crockford
  = Err (IllegalCharacter "U"%byte 5).
Proof.
  apply (proj2 (proj2 (proj2 (proj2 (proj2 (proj2 (proj2 (proj2 (proj2
           crockford_decode_table)))))))) (bytes "91JP") (bytes "0") "U"%byte).
  - left. reflexivity.
  - vm_compute. repeat constructor.
Defined.

(** C8. In the Crockford format every ['-'] of the input is skipped,
    wherever it stands: the input decodes to the same bytes as the input
    with all ['-'] removed, so "91JP", "91-jp" and "-9--1jp-" decode
    alike.  The Crockford encoder never writes ['-'].  In the RFC format
    ['-'] is an illegal character: the table rejects it, and the decoder
    reports it with its position when the scan reaches it. *)
Theorem crockford_hyphen_skipped :
  (forall src out : list byte,
      decode_lua src crockford = Ok out <->
      decode_lua (remove_hyphens src) crockford = Ok out) /\
  decode_lua (bytes "91JP") crockford = decode_lua (bytes "91-jp") crockford /\
  decode_lua (bytes "-9--1jp-") crockford = decode_lua (bytes "91JP") crockford /\
  (forall b : list byte, ~ In "-"%byte (encode_lua b crockford)) /\
  accepts crockford "-"%byte = true /\
  accepts rfc "-"%byte = false /\
  (forall pre post : list byte,
      Forall (fun c => accepts rfc c = true) pre ->
      (List.length (pre ++ "-"%byte :: post) mod 8 = 0)%nat ->
      bad_npad (trailing_pads (pre ++ "-"%byte :: post)) = false ->
      decode_lua (pre ++ "-"%byte :: post) rfc
      = Err (IllegalCharacter "-"%byte (List.length pre + 1))).
Proof.
  split_all;
    [ | by_computation | by_computation | | by_computation | by_computation | ].
  - intros src out. rewrite !decode_lua_crockford. apply decode_scan_hyphens.
  - intros b H.
    pose proof (encode_lua_crockford_alphabet b) as Ha.
    rewrite Forall_forall in Ha. apply Ha in H.
    apply (alphabet_no_hyphen crockford) in H. discriminate.
  - intros pre post Hpre Hlen Hbad.
    apply decode_lua_rfc_illegal; try assumption; try reflexivity.
    apply trailing_pads_after. left. reflexivity.
Qed.

Lemma crockford_hyphen_skipped_witness :
  decode_lua (bytes "MZ-W6YQ=") rfc = Err (IllegalCharacter "-"%byte 3).
Proof.
  apply (proj2 (proj2 (proj2 (proj2 (proj2 (proj2 crockford_hyphen_skipped)))))
           (bytes "MZ") (bytes "W6YQ=")).
  - vm_compute. repeat constructor.
  - reflexivity.
  - reflexivity.
Defined.

(** C9. When the scan ends, the drain loop writes the top byte while at
    least 8 bits are held and leaves fewer than 8; the result is returned
    without any test on the bits left.  Every input that passes the
    length, padding and character checks therefore decodes, also when
    the bits left are not zero: "MZ======" and "CS" leave two bits of
    value 1 and decode to "f", like "MY======" and "CR", which leave
    zero. *)
Theorem leftover_bits_discarded :
  (forall (opt : format) (src : list byte),
      well_formed opt src ->
      exists out n v,
        decode_lua src opt = Ok out /\
        leftover_bits opt src (scanned_len opt src) = Some (n, v) /\
        (n < 8)%nat) /\
  (forall (opt : format) (src : list byte) (n : nat) (v : Z),
      well_formed opt src ->
      leftover_bits opt src (scanned_len opt src) = Some (n, v) ->
      v <> 0 ->
      exists out, decode_lua src opt = Ok out) /\
  (forall acc nbits b, (fst (drain acc nbits b) < 8)%nat) /\
  leftover_bits rfc (bytes "MZ======") 2 = Some (2%nat, 1) /\
  decode_lua (bytes "MZ======") rfc = Ok (bytes "f") /\
  leftover_bits rfc (bytes "MY======") 2 = Some (2%nat, 0) /\
  decode_lua (bytes "MY======") rfc = Ok (bytes "f") /\
  leftover_bits crockford (bytes "CS") 2 = Some (2%nat, 1) /\
  decode_lua (bytes "CS") crockford = Ok (bytes "f") /\
  leftover_bits crockford (bytes "CR") 2 = Some (2%nat, 0) /\
  decode_lua (bytes "CR") crockford = Ok (bytes "f").
Proof.
  split_all; [ | | | by_computation .. ].
  - intros opt src Hwf.
    destruct (decode_lua_well_formed opt src Hwf)
      as (acc & nbits & b & E1 & E2).
    exists (snd (drain acc nbits b)), (fst (drain acc nbits b)),
      (Z.land acc (Z.ones (Z.of_nat (fst (drain acc nbits b))))).
    split; [exact E2|]. split.
    + unfold leftover_bits. now rewrite E1.
    + apply drain_lt8.
  - intros opt src n v Hwf _ _.
    destruct (decode_lua_well_formed opt src Hwf)
      as (acc & nbits & b & _ & E2).
    eauto.
  - intros acc nbits b. apply drain_lt8.
Qed.

Lemma leftover_bits_discarded_witness :
  exists out, decode_lua (bytes "MZ======") rfc = Ok out.
Proof.
  apply (proj1 (proj2 leftover_bits_discarded)
           rfc (bytes "MZ======") 2%nat 1).
  - split; [reflexivity|]. split; [reflexivity|].
    vm_compute. repeat constructor.
  - reflexivity.
  - discriminate.
Defined.

(** C10, as stated, fails: in "A=A=AAAA" the ['='] at position 4 is
    followed by other characters and the input passes the length and
    padding checks, yet the error is not [IllegalCharacter] at position 4
    (the scan stops at the ['='] of position 2). *)
Lemma interior_pad_position_refuted :
  bytes "A=A" ++ "="%byte :: bytes "AAAA" = bytes "A=A=AAAA" /\
  (exists d, In d (bytes "AAAA") /\ d <> "="%byte) /\
  (List.length (bytes "A=A=AAAA") mod 8 = 0)%nat /\
  bad_npad (trailing_pads (bytes "A=A=AAAA")) = false /\
  decode_lua (bytes "A=A=AAAA") rfc
  <> Err (IllegalCharacter "="%byte (List.length (bytes "A=A") + 1)) /\
  decode_lua (bytes "A=A=AAAA") rfc = Err (IllegalCharacter "="%byte 2).
Proof.
  split_all; [by_computation | | by_computation .. | | by_computation].
  - exists "A"%byte. split; [left; reflexivity|discriminate].
  - vm_compute. discriminate.
Qed.

(** C10, amended. In the RFC format a ['='] that is followed somewhere
    by another character is not removed as padding: it stays within the
    scanned length.  If the input passes the length and padding checks
    and every character before that ['='] is accepted by the scan, the
    decoder fails with [IllegalCharacter] for ['='] at its 1-based
    position. *)
Theorem interior_pad_illegal (pre post : list byte) :
  (exists d, In d post /\ d <> "="%byte) ->
  (List.length (pre ++ "="%byte :: post) mod 8 = 0)%nat ->
  bad_npad (trailing_pads (pre ++ "="%byte :: post)) = false ->
  Forall (fun c => accepts rfc c = true) pre ->
  (List.length pre < scanned_len rfc (pre ++ "="%byte :: post))%nat /\
  accepts rfc "="%byte = false /\
  decode_lua (pre ++ "="%byte :: post) rfc
  = Err (IllegalCharacter "="%byte (List.length pre + 1)).
Proof.
  intros (d & Hin & Hd) Hlen Hbad Hpre.
  assert (Hk : (trailing_pads (pre ++ "="%byte :: post)
                <= List.length post)%nat).
  { apply trailing_pads_after. right. exists d. split; [exact Hin|].
    now apply byte_eqb_neq. }
  split; [|split].
  - cbn [scanned_len]. rewrite length_app in *. cbn [List.length] in *. lia.
  - reflexivity.
  - apply decode_lua_rfc_illegal; try assumption. reflexivity.
Qed.

Lemma interior_pad_illegal_witness :
  decode_lua (bytes "MZ=W6YQ=") rfc = Err (IllegalCharacter "="%byte 3).
Proof.
  apply (interior_pad_illegal (bytes "MZ") (bytes "W6YQ=")).
  - exists "W"%byte. split; [left; reflexivity|discriminate].
  - reflexivity.
  - reflexivity.
  - vm_compute. repeat constructor.
Defined.

(** * Further properties of the code *)

(** ** The decode tables in closed form *)

Lemma tbl_range (opt : format) (c : byte) :
  0 <= tbl_at (decode_table opt) c <= 255.
Proof.
  assert (H : (0 <=? tbl_at (decode_table opt) c)
              && (tbl_at (decode_table opt) c <=? 255) = true)
    by (destruct opt; destruct c; by_computation).
  apply andb_prop in H as [H1 H2]. lia.
Qed.

(** Every entry of [RFC_DECODE_TABLE], for all 256 bytes: 'A'-'Z' and
    'a'-'z' hold 0-25, '2'-'7' hold 26-31, every other byte holds 0xFF. *)
Theorem rfc_table_closed_form (c : byte) :
  tbl_at RFC_DECODE_TABLE c = rfc_value c.
Proof. destruct c; by_computation. Qed.

(** Every entry of [CROCKFORD_DECODE_TABLE], for all 256 bytes: digits
    hold their value, letters of either case hold their Crockford value
    (I, L as 1, O as 0, U invalid), every other byte holds 0xFF. *)
Theorem crockford_table_closed_form (c : byte) :
  tbl_at CROCKFORD_DECODE_TABLE c = crockford_value c.
Proof. destruct c; by_computation. Qed.

(** ** Invariant of the decoding loop *)

Lemma push_nowrap (acc n : Z) :
  0 <= n -> n <= 35 ->
  uint64 (Z.shiftl (acc mod 2 ^ n) 5) = Z.shiftl (acc mod 2 ^ n) 5.
Proof. intros H0 H35. unfold uint64. bits. Qed.

Lemma push_mod (acc dc n : Z) :
  0 <= n -> n <= 35 ->
  Z.lor (uint64 (Z.shiftl (acc mod 2 ^ n) 5)) (dc mod 2 ^ 5)
  = Z.lor (uint64 (Z.shiftl (acc mod 2 ^ n) 5)) (dc mod 2 ^ 5) mod 2 ^ (n + 5).
Proof. intros H0 H35. unfold uint64. bits. Qed.

Lemma push_emit (acc dc : Z) :
  Z.shiftr (Z.lor (uint64 (Z.shiftl (acc mod 2 ^ 35) 5)) (dc mod 2 ^ 5)) 40
  = 0.
Proof. unfold uint64. bits. Qed.

(** One step on a valid table entry keeps the accumulator within its
    [nbits] bits, and its shift does not leave the 64 bits. *)
Lemma add5bits_inv (acc : Z) (nbits : nat) (b : list byte) (dc : Z) :
  acc = acc mod 2 ^ Z.of_nat nbits ->
  (nbits < 40)%nat ->
  (exists k, nbits = 5 * k)%nat ->
  0 <= dc <= 31 ->
  uint64 (Z.shiftl acc 5) = Z.shiftl acc 5 /\
  let '(acc', nbits', b') := add5bits acc nbits b dc in
  acc' = acc' mod 2 ^ Z.of_nat nbits' /\
  (nbits' < 40)%nat /\
  (exists k, nbits' = 5 * k)%nat /\
  (8 * List.length b' + nbits' = 8 * List.length b + nbits + 5)%nat.
Proof.
  intros Hacc Hlt (k & Hk) Hdc.
  assert (Hd : dc = dc mod 2 ^ 5)
    by (symmetry; apply Z.mod_small; change (2 ^ 5) with 32; lia).
  split.
  { rewrite Hacc. apply push_nowrap; lia. }
  unfold add5bits.
  destruct (Nat.leb_spec 40 (nbits + 5)) as [Hge|Hlt5].
  - assert (nbits = 35%nat) by lia. clear Hk. subst nbits.
    replace (35 + 5 - 40)%nat with 0%nat by lia.
    split; [|split; [lia|split; [exists 0%nat; lia|]]].
    + rewrite Hacc, Hd. change (Z.of_nat 35) with 35.
      rewrite push_emit. reflexivity.
    + rewrite length_app. cbn [List.length]. lia.
  - split; [|split; [lia|split; [exists (S k); lia|lia]]].
    rewrite Nat2Z.inj_add. change (Z.of_nat 5) with 5.
    rewrite Hacc, Hd. apply push_mod; lia.
Qed.

Lemma data_count_cons (opt : format) (c : byte) (src : list byte) :
  data_count opt (c :: src)
  = if skipped opt c then data_count opt src else S (data_count opt src).
Proof. unfold data_count. cbn [filter]. now destruct (skipped opt c). Qed.

Lemma decode_loop_inv (opt : format) (src : list byte) :
  forall i acc nbits b acc' nbits' b',
    acc = acc mod 2 ^ Z.of_nat nbits ->
    (nbits < 40)%nat ->
    (exists k, nbits = 5 * k)%nat ->
    decode_loop opt src i acc nbits b = inr (acc', nbits', b') ->
    acc' = acc' mod 2 ^ Z.of_nat nbits' /\
    (nbits' < 40)%nat /\
    (exists k, nbits' = 5 * k)%nat /\
    (8 * List.length b' + nbits'
     = 8 * List.length b + nbits + 5 * data_count opt src)%nat.
Proof.
  induction src as [|c src IH]; intros i acc nbits b acc' nbits' b' Ha Hn Hk H.
  - cbn in H. injection H as <- <- <-. cbn. repeat split; try assumption. lia.
  - cbn [decode_loop] in H. rewrite data_count_cons. unfold skipped.
    destruct (Byte.eqb c "-"%byte && is_crockford opt).
    + eapply IH; eassumption.
    + destruct (Z.ltb_spec 31 (tbl_at (decode_table opt) c)) as [Hd|Hd];
        [discriminate|].
      pose proof (tbl_range opt c) as Hr.
      destruct (add5bits_inv acc nbits b (tbl_at (decode_table opt) c)
                  Ha Hn Hk ltac:(lia)) as [_ Hstep].
      destruct (add5bits acc nbits b (tbl_at (decode_table opt) c))
        as [[acc1 nbits1] b1].
      destruct Hstep as (Ha1 & Hn1 & Hk1 & Hlen1).
      destruct (IH _ _ _ _ _ _ _ Ha1 Hn1 Hk1 H) as (Ha' & Hn' & Hk' & Hlen').
      repeat split; try assumption. lia.
Qed.

Lemma drain_length (nbits : nat) :
  forall acc b,
    fst (drain acc nbits b) = (nbits mod 8)%nat /\
    List.length (snd (drain acc nbits b)) = (List.length b + nbits / 8)%nat.
Proof.
  induction nbits as [n IH] using lt_wf_ind. intros acc b.
  do 8 (destruct n as [|n]; [cbn; split; [reflexivity|lia]|]).
  cbn [drain].
  destruct (IH n ltac:(lia) acc
              (b ++ [to_char (Z.land (Z.shiftr acc (Z.of_nat n)) 0xFF)]))
    as [E1 E2].
  rewrite E1, E2, length_app. cbn [List.length].
  replace (S (S (S (S (S (S (S (S n)))))))) with (n + 1 * 8)%nat by lia.
  rewrite Nat.Div0.mod_add, Nat.div_add by lia. lia.
Qed.

(** ** What a successful or failing call tells about the input *)

Lemma decode_loop_ok_accepts (opt : format) (src : list byte) :
  forall i acc nbits b st,
    decode_loop opt src i acc nbits b = inr st ->
    Forall (fun c => accepts opt c = true) src.
Proof.
  induction src as [|c src IH]; intros i acc nbits b st H; [constructor|].
  cbn [decode_loop] in H.
  assert (Hc : accepts opt c = true).
  { unfold accepts.
    destruct (Byte.eqb c "-"%byte && is_crockford opt); [reflexivity|].
    destruct (31 <? tbl_at (decode_table opt) c); [discriminate|reflexivity]. }
  constructor; [exact Hc|].
  destruct (Byte.eqb c "-"%byte && is_crockford opt); [eapply IH, H|].
  destruct (31 <? tbl_at (decode_table opt) c); [discriminate|].
  destruct (add5bits acc nbits b (tbl_at (decode_table opt) c))
    as [[acc1 nbits1] b1]. eapply IH, H.
Qed.

Lemma decode_loop_error_inv (opt : format) (src : list byte) :
  forall i acc nbits b c pos,
    decode_loop opt src i acc nbits b = inl (IllegalCharacter c pos) ->
    exists pre post,
      src = pre ++ c :: post /\
      pos = (i + List.length pre + 1)%nat /\
      accepts opt c = false /\
      Forall (fun d => accepts opt d = true) pre.
Proof.
  induction src as [|d src IH]; intros i acc nbits b c pos H; [discriminate|].
  destruct (accepts opt d) eqn:Hd.
  - rewrite accepts_step in H by assumption.
    assert (Hrest : exists acc1 nbits1 b1,
               decode_loop opt src (S i) acc1 nbits1 b1
               = inl (IllegalCharacter c pos)).
    { destruct (Byte.eqb d "-"%byte && is_crockford opt); [eauto|].
      destruct (add5bits acc nbits b (tbl_at (decode_table opt) d))
        as [[acc1 nbits1] b1]. eauto. }
    destruct Hrest as (acc1 & nbits1 & b1 & Hrest).
    destruct (IH _ _ _ _ _ _ Hrest) as (pre & post & -> & -> & Hc & Hpre).
    exists (d :: pre), post. cbn [app List.length].
    repeat split; try assumption; [lia|now constructor].
  - rewrite rejects_step in H by assumption. injection H as <- <-.
    exists [], src. cbn [app List.length]. repeat split; try assumption.
    + lia.
    + constructor.
Qed.

Lemma decode_lua_rfc_length (src : list byte) :
  src <> [] -> (List.length src mod 8 <> 0)%nat ->
  decode_lua src rfc = Err InvalidLength.
Proof.
  intros Hne Hlen. unfold decode_lua.
  destruct src as [|c src']; [contradiction|].
  cbn [List.length Nat.eqb].
  change (S (List.length src')) with (List.length (c :: src')).
  destruct (Nat.eqb_spec (List.length (c :: src') mod 8) 0); [lia|].
  reflexivity.
Qed.

Lemma bad_npad_le6 (n : nat) : bad_npad n = false -> (n <= 6)%nat.
Proof.
  intros H. destruct (Nat.le_gt_cases n 6) as [|Hgt]; [assumption|].
  exfalso. revert H Hgt.
  do 7 (destruct n as [|n]; [lia|]). discriminate.
Qed.

(** [decode_lua] in terms of the scan of [scanned_len] characters, for both
    formats and every input that passes the length and padding checks. *)
Lemma decode_lua_scan (opt : format) (src : list byte) :
  match opt with
  | rfc => (List.length src mod 8 = 0)%nat /\
           bad_npad (trailing_pads src) = false
  | crockford => True
  end ->
  decode_lua src opt = decode_scan opt src (scanned_len opt src).
Proof.
  destruct opt; cbn [scanned_len].
  - intros [Hlen Hbad]. destruct src as [|c src']; [reflexivity|].
    rewrite decode_lua_rfc by (assumption || discriminate).
    rewrite Hbad.
    pose proof (bad_npad_le6 _ Hbad).
    destruct (Nat.ltb_spec 6 (trailing_pads (c :: src'))); [lia|reflexivity].
  - intros _. apply decode_lua_crockford.
Qed.

Lemma decode_lua_checks (src : list byte) :
  (List.length src mod 8 = 0)%nat /\ bad_npad (trailing_pads src) = false \/
  decode_lua src rfc = Err InvalidLength \/
  decode_lua src rfc = Err InvalidPadding.
Proof.
  destruct src as [|c src'].
  - left. split; reflexivity.
  - destruct (Nat.eq_dec (List.length (c :: src') mod 8) 0) as [Hlen|Hlen].
    + rewrite decode_lua_rfc by (assumption || discriminate).
      destruct (Nat.ltb_spec 6 (trailing_pads (c :: src'))); [auto|].
      destruct (bad_npad (trailing_pads (c :: src'))); auto.
    + right. left. apply decode_lua_rfc_length; [discriminate|assumption].
Qed.

Lemma decode_lua_ok_inv (opt : format) (src out : list byte) :
  decode_lua src opt = Ok out ->
  well_formed opt src /\
  exists acc nbits b,
    decode_loop opt (firstn (scanned_len opt src) src) 0 0 0 []
    = inr (acc, nbits, b) /\
    out = snd (drain acc nbits b).
Proof.
  intros H.
  assert (Hchk : match opt with
                 | rfc => (List.length src mod 8 = 0)%nat /\
                          bad_npad (trailing_pads src) = false
                 | crockford => True
                 end).
  { destruct opt; [|exact I].
    destruct (decode_lua_checks src) as [Hc|[Hc|Hc]];
      [exact Hc|congruence|congruence]. }
  rewrite (decode_lua_scan opt src Hchk) in H. unfold decode_scan in H.
  destruct (decode_loop opt (firstn (scanned_len opt src) src) 0 0 0 [])
    as [e|[[acc nbits] b]] eqn:E; [discriminate|].
  injection H as <-.
  pose proof (decode_loop_ok_accepts _ _ _ _ _ _ _ E) as Hall.
  split; [|eauto].
  destruct opt; cbn [well_formed scanned_len] in *.
  - destruct Hchk. auto.
  - now rewrite firstn_all in Hall.
Qed.

(** [decode_lua] succeeds exactly on the inputs that pass its checks:
    for the RFC format a length that is a multiple of 8, a trailing run of
    0, 1, 3, 4 or 6 ['='], and before it only characters of the table; for
    the Crockford format only characters of the table and ['-']. *)
Theorem decode_succeeds_iff (opt : format) (src : list byte) :
  (exists out, decode_lua src opt = Ok out) <-> well_formed opt src.
Proof.
  split.
  - intros (out & H). now apply decode_lua_ok_inv in H.
  - intros H.
    destruct (decode_lua_well_formed opt src H) as (acc & nbits & b & _ & E).
    eauto.
Qed.

(** An [IllegalCharacter c pos] error names the first character of the
    input that the scan rejects: [c] stands at the 1-based position [pos],
    it is rejected, and every character before it is accepted. *)
Theorem illegal_character_is_first (opt : format) (src : list byte)
    (c : byte) (pos : nat) :
  decode_lua src opt = Err (IllegalCharacter c pos) ->
  exists pre post,
    src = pre ++ c :: post /\
    pos = (List.length pre + 1)%nat /\
    accepts opt c = false /\
    Forall (fun d => accepts opt d = true) pre.
Proof.
  intros H.
  assert (Hchk : match opt with
                 | rfc => (List.length src mod 8 = 0)%nat /\
                          bad_npad (trailing_pads src) = false
                 | crockford => True
                 end).
  { destruct opt; [|exact I].
    destruct (decode_lua_checks src) as [Hc|[Hc|Hc]];
      [exact Hc|congruence|congruence]. }
  rewrite (decode_lua_scan opt src Hchk) in H. unfold decode_scan in H.
  destruct (decode_loop opt (firstn (scanned_len opt src) src) 0 0 0 [])
    as [e|[[acc nbits] b]] eqn:E; [|discriminate].
  injection H as ->.
  apply decode_loop_error_inv in E as (pre & post & E & -> & Hc & Hpre).
  exists pre, (post ++ skipn (scanned_len opt src) src).
  repeat split; try assumption.
  rewrite <- (firstn_skipn (scanned_len opt src) src) at 1.
  rewrite E, <- app_assoc. reflexivity.
Qed.

Lemma illegal_character_is_first_witness :
  exists pre post,
    bytes "MZ!W6YQ=" = pre ++ "!"%byte :: post /\
    3%nat = (List.length pre + 1)%nat /\
    accepts rfc "!"%byte = false /\
    Forall (fun d => accepts rfc d = true) pre.
Proof.
  apply (illegal_character_is_first rfc (bytes "MZ!W6YQ=") "!"%byte 3).
  vm_compute. reflexivity.
Defined.

(** The state in which the scan ends, started as [decode_lua] starts it:
    the accumulator holds [nbits < 40] bits and no more, so that its next
    shift by 5 stays within 64 bits, and the bytes written together with
    the bits held are the 5 bits of each character read. *)
Theorem decode_loop_final_state (opt : format) (src : list byte) (i : nat)
    (acc : Z) (nbits : nat) (b : list byte) :
  decode_loop opt src i 0 0 [] = inr (acc, nbits, b) ->
  0 <= acc < 2 ^ Z.of_nat nbits /\
  (nbits < 40)%nat /\
  (8 * List.length b + nbits = 5 * data_count opt src)%nat /\
  uint64 (Z.shiftl acc 5) = Z.shiftl acc 5.
Proof.
  intros H.
  destruct (decode_loop_inv opt src i 0 0%nat [] acc nbits b)
    as (Ha & Hn & Hk & Hlen); try assumption; try reflexivity.
  { lia. } { exists 0%nat. reflexivity. }
  split; [|split; [exact Hn|split]].
  - rewrite Ha. apply Z.mod_pos_bound. apply Z.pow_pos_nonneg; lia.
  - cbn [List.length] in Hlen. lia.
  - destruct Hk as (k & Hk). rewrite Ha. apply push_nowrap; lia.
Qed.

Lemma decode_loop_final_state_witness :
  0 <= 456 < 2 ^ Z.of_nat 10 /\
  (10 < 40)%nat /\
  (8 * List.length (bytes "fooba") + 10
   = 5 * data_count crockford (bytes "CSQPYRK1-E8"))%nat /\
  uint64 (Z.shiftl 456 5) = Z.shiftl 456 5.
Proof.
  apply (decode_loop_final_state crockford (bytes "CSQPYRK1-E8") 0).
  vm_compute. reflexivity.
Defined.

Lemma data_count_rfc (src : list byte) :
  data_count rfc src = List.length src.
Proof.
  induction src as [|c src IH]; [reflexivity|].
  rewrite data_count_cons. unfold skipped. cbn [is_crockford].
  rewrite andb_false_r. cbn [List.length]. now rewrite IH.
Qed.

Lemma trailing_pads_le (src : list byte) :
  (trailing_pads src <= List.length src)%nat.
Proof.
  unfold trailing_pads. rewrite <- length_rev. apply leading_pads_le.
Qed.

(** Size of the decoded string: 5 bits for each character read, whole
    bytes only.  The characters read are all but the trailing ['='] in
    the RFC format and all but the ['-'] in the Crockford format; in both
    the result has at most [len * 5 / 8] bytes. *)
Theorem decoded_length (opt : format) (src out : list byte) :
  decode_lua src opt = Ok out ->
  List.length out
  = match opt with
    | rfc => (5 * (List.length src - trailing_pads src) / 8)%nat
    | crockford => (5 * data_count crockford src / 8)%nat
    end /\
  (List.length out <= 5 * List.length src / 8)%nat.
Proof.
  intros H.
  apply decode_lua_ok_inv in H as (_ & acc & nbits & b & E & ->).
  destruct (decode_loop_inv opt (firstn (scanned_len opt src) src)
              0%nat 0 0%nat [] acc nbits b)
    as (_ & _ & _ & Hlen);
    [reflexivity | lia | exists 0%nat; reflexivity | exact E |].
  cbn [List.length] in Hlen.
  destruct (drain_length nbits acc b) as [_ Hd]. rewrite Hd.
  assert (Hout : (List.length b + nbits / 8
                  = 5 * data_count opt (firstn (scanned_len opt src) src) / 8)%nat).
  { replace (5 * data_count opt (firstn (scanned_len opt src) src))%nat
      with (nbits + List.length b * 8)%nat by lia.
    rewrite Nat.div_add by lia. lia. }
  rewrite Hout.
  assert (Hle : (data_count opt (firstn (scanned_len opt src) src)
                 <= List.length src)%nat).
  { unfold data_count.
    etransitivity; [apply filter_length_le|].
    rewrite length_firstn. lia. }
  split.
  - destruct opt; cbn [scanned_len].
    + rewrite data_count_rfc, length_firstn.
      pose proof (trailing_pads_le src).
      now rewrite Nat.min_l by lia.
    + now rewrite firstn_all.
  - apply Nat.Div0.div_le_mono. lia.
Qed.

Lemma decoded_length_witness :
  List.length (bytes "He")
  = (5 * data_count crockford (bytes "91-jp") / 8)%nat /\
  (List.length (bytes "He") <= 5 * List.length (bytes "91-jp") / 8)%nat.
Proof.
  apply (decoded_length crockford (bytes "91-jp") (bytes "He")).
  vm_compute. reflexivity.
Defined.

Lemma decode_succeeds_iff_witness :
  exists out, decode_lua (bytes "91-jp") crockford = Ok out.
Proof.
  apply (proj2 (decode_succeeds_iff crockford (bytes "91-jp"))).
  vm_compute. repeat constructor.
Defined.

(** ** Characters with the same table entry are interchangeable *)

Section Renaming.
Variable opt : format.
Variable f : byte -> byte.
Hypothesis f_value :
  forall c, tbl_at (decode_table opt) (f c) = tbl_at (decode_table opt) c.
Hypothesis f_hyphen : forall c, Byte.eqb (f c) "-"%byte = Byte.eqb c "-"%byte.
Hypothesis f_pad : forall c, Byte.eqb (f c) "="%byte = Byte.eqb c "="%byte.

Lemma decode_loop_map (src : list byte) :
  forall i acc nbits b,
    decode_loop opt (map f src) i acc nbits b
    = match decode_loop opt src i acc nbits b with
      | inl (IllegalCharacter c pos) => inl (IllegalCharacter (f c) pos)
      | r => r
      end.
Proof.
  induction src as [|c src IH]; intros i acc nbits b; [reflexivity|].
  cbn [map decode_loop]. rewrite f_value, f_hyphen.
  destruct (Byte.eqb c "-"%byte && is_crockford opt); [apply IH|].
  destruct (31 <? tbl_at (decode_table opt) c); [reflexivity|].
  destruct (add5bits acc nbits b (tbl_at (decode_table opt) c))
    as [[acc1 nbits1] b1]. apply IH.
Qed.

Lemma leading_pads_map (l : list byte) :
  leading_pads (map f l) = leading_pads l.
Proof.
  induction l as [|c l IH]; [reflexivity|].
  cbn [map leading_pads]. rewrite f_pad, IH. reflexivity.
Qed.

Lemma trailing_pads_map (src : list byte) :
  trailing_pads (map f src) = trailing_pads src.
Proof. unfold trailing_pads. now rewrite <- map_rev, leading_pads_map. Qed.

Lemma decode_scan_map (src : list byte) (len : nat) :
  decode_scan opt (map f src) len = map_illegal f (decode_scan opt src len).
Proof.
  unfold decode_scan. rewrite firstn_map, decode_loop_map.
  destruct (decode_loop opt (firstn len src) 0 0 0 [])
    as [[| |c pos]|[[acc nbits] b]]; reflexivity.
Qed.
End Renaming.

Lemma decode_lua_map (opt : format) (f : byte -> byte) (src : list byte) :
  (forall c, tbl_at (decode_table opt) (f c) = tbl_at (decode_table opt) c) ->
  (forall c, Byte.eqb (f c) "-"%byte = Byte.eqb c "-"%byte) ->
  (forall c, Byte.eqb (f c) "="%byte = Byte.eqb c "="%byte) ->
  decode_lua (map f src) opt = map_illegal f (decode_lua src opt).
Proof.
  intros Hv Hh Hp. destruct opt.
  - destruct src as [|c src']; [reflexivity|].
    destruct (Nat.eq_dec (List.length (c :: src') mod 8) 0) as [Hlen|Hlen].
    + rewrite (decode_lua_rfc (map f (c :: src')));
        [|discriminate|now rewrite length_map].
      rewrite (decode_lua_rfc (c :: src')) by (assumption || discriminate).
      rewrite (trailing_pads_map f Hp), length_map.
      destruct (6 <? trailing_pads (c :: src'))%nat; [reflexivity|].
      destruct (bad_npad (trailing_pads (c :: src'))); [reflexivity|].
      now apply decode_scan_map.
    + rewrite (decode_lua_rfc_length (map f (c :: src')));
        [|discriminate|now rewrite length_map].
      now rewrite (decode_lua_rfc_length (c :: src'))
        by (assumption || discriminate).
  - rewrite !decode_lua_crockford, length_map. now apply decode_scan_map.
Qed.

(** Renaming the characters of an input by a function that keeps every
    character's table entry, and keeps ['-'] and ['='] apart from the
    others, does not change the result of [decode_lua], up to the name of
    the character in an [IllegalCharacter] error. *)
Theorem decode_renaming (opt : format) (f : byte -> byte) (src : list byte) :
  (forall c, tbl_at (decode_table opt) (f c) = tbl_at (decode_table opt) c) ->
  (forall c, Byte.eqb (f c) "-"%byte = Byte.eqb c "-"%byte) ->
  (forall c, Byte.eqb (f c) "="%byte = Byte.eqb c "="%byte) ->
  decode_lua (map f src) opt = map_illegal f (decode_lua src opt).
Proof. apply decode_lua_map. Qed.

Lemma case_keeps_entry (opt : format) (c : byte) :
  tbl_at (decode_table opt) (to_upper c) = tbl_at (decode_table opt) c /\
  tbl_at (decode_table opt) (to_lower c) = tbl_at (decode_table opt) c /\
  Byte.eqb (to_upper c) "-"%byte = Byte.eqb c "-"%byte /\
  Byte.eqb (to_lower c) "-"%byte = Byte.eqb c "-"%byte /\
  Byte.eqb (to_upper c) "="%byte = Byte.eqb c "="%byte /\
  Byte.eqb (to_lower c) "="%byte = Byte.eqb c "="%byte.
Proof. destruct opt; destruct c; split_all; by_computation. Qed.

Lemma alias_keeps_entry (c : byte) :
  tbl_at CROCKFORD_DECODE_TABLE (crockford_alias c)
  = tbl_at CROCKFORD_DECODE_TABLE c /\
  Byte.eqb (crockford_alias c) "-"%byte = Byte.eqb c "-"%byte /\
  Byte.eqb (crockford_alias c) "="%byte = Byte.eqb c "="%byte.
Proof. destruct c; split_all; by_computation. Qed.

Lemma decode_renaming_witness :
  decode_lua (map to_upper (bytes "mzxw6ytb")) rfc
  = map_illegal to_upper (decode_lua (bytes "mzxw6ytb") rfc).
Proof.
  apply (decode_renaming rfc to_upper (bytes "mzxw6ytb")).
  - intros c. apply (case_keeps_entry rfc c).
  - intros c. apply (case_keeps_entry rfc c).
  - intros c. apply (case_keeps_entry rfc c).
Defined.

(** Both formats decode without regard to the case of letters: turning
    the input to upper case or to lower case gives the same bytes, or the
    same error (an illegal character reported in the new case). *)
Theorem decode_case_insensitive (opt : format) (src : list byte) :
  decode_lua (map to_upper src) opt = map_illegal to_upper (decode_lua src opt)
  /\
  decode_lua (map to_lower src) opt = map_illegal to_lower (decode_lua src opt).
Proof.
  split; apply decode_lua_map; intros c; apply (case_keeps_entry opt c).
Qed.

(** In the Crockford format I, i, L, l stand for '1' and O, o for '0'
    wherever they occur: replacing them by the digits does not change the
    result. *)
Theorem crockford_aliases (src : list byte) :
  decode_lua (map crockford_alias src) crockford = decode_lua src crockford.
Proof.
  rewrite (decode_lua_map crockford crockford_alias);
    try (intros c; apply (alias_keeps_entry c)).
  destruct (decode_lua src crockford) as [out|[| |c pos]] eqn:E;
    try reflexivity.
  cbn [map_illegal]. do 2 f_equal.
  rewrite decode_lua_crockford in E. unfold decode_scan in E.
  rewrite firstn_all in E.
  destruct (decode_loop crockford src 0 0 0 []) as [e|[[acc nbits] b]] eqn:El;
    [|discriminate].
  injection E as ->.
  apply decode_loop_error_inv in El as (pre & post & _ & _ & Hc & _).
  revert Hc. destruct c; try reflexivity; vm_compute; discriminate.
Qed.

(** ** Further properties of the encoder *)

Lemma symbol_count_split (len : nat) :
  symbol_count len
  = (8 * (len / 5) + nth (len mod 5) [0; 2; 4; 5; 7] 0)%nat.
Proof.
  unfold symbol_count.
  pose proof (Nat.div_mod_eq len 5) as Hd.
  pose proof (Nat.mod_upper_bound len 5 ltac:(lia)) as Hr.
  set (q := (len / 5)%nat) in *. set (r := (len mod 5)%nat) in *.
  replace (len * 8 + 4)%nat with ((r * 8 + 4) + (8 * q) * 5)%nat by lia.
  rewrite Nat.div_add by lia.
  do 5 (destruct r as [|r]; [cbn; lia|]). lia.
Qed.

Lemma pad_count_rfc (len : nat) :
  pad_count rfc (symbol_count len) = rfc_padding len /\
  bad_npad (rfc_padding len) = false /\
  (symbol_count len + rfc_padding len = 8 * ((len + 4) / 5))%nat.
Proof.
  rewrite symbol_count_split. unfold rfc_padding, pad_count.
  pose proof (Nat.div_mod_eq len 5) as Hd.
  pose proof (Nat.mod_upper_bound len 5 ltac:(lia)) as Hr.
  set (q := (len / 5)%nat) in *. set (r := (len mod 5)%nat) in *.
  replace ((len + 4) / 5)%nat with (q + (r + 4) / 5)%nat.
  2:{ replace (len + 4)%nat with ((r + 4) + q * 5)%nat by lia.
      rewrite Nat.div_add by lia. lia. }
  replace (8 * q + nth r [0; 2; 4; 5; 7] 0)%nat
    with (nth r [0; 2; 4; 5; 7] 0 + q * 8)%nat by lia.
  rewrite Nat.Div0.mod_add.
  do 5 (destruct r as [|r]; [cbn; split_all; try reflexivity; lia|]). lia.
Qed.

(** Length and padding of an RFC encoding: 8 characters for every 5 bytes
    begun, of which the last 0, 6, 4, 3 or 1 are ['='] when the input
    length is 0, 1, 2, 3 or 4 modulo 5. *)
Theorem rfc_encoded_length (src : list byte) :
  List.length (encode_lua src rfc) = (8 * ((List.length src + 4) / 5))%nat /\
  trailing_pads (encode_lua src rfc) = rfc_padding (List.length src).
Proof.
  rewrite encode_lua_shape.
  destruct (encode_symbols_count rfc src) as [Hlen Hcount].
  rewrite <- Hlen, Hcount.
  destruct (pad_count_rfc (List.length src)) as (Hp & _ & Hsum).
  rewrite Hp. split.
  - rewrite length_app, repeat_length, <- Hlen, Hcount. exact Hsum.
  - apply trailing_pads_app_repeat.
    eapply Forall_impl; [|apply encode_symbols_alphabet].
    apply alphabet_no_pad.
Qed.

Lemma app_pad_inj (l1 : list byte) :
  forall l2 p1 p2,
    Forall (fun c => Byte.eqb c "="%byte = false) l1 ->
    Forall (fun c => Byte.eqb c "="%byte = false) l2 ->
    l1 ++ repeat "="%byte p1 = l2 ++ repeat "="%byte p2 ->
    l1 = l2.
Proof.
  induction l1 as [|c l1 IH]; intros l2 p1 p2 H1 H2 E.
  - destruct l2 as [|d l2]; [reflexivity|].
    destruct p1 as [|p1]; [discriminate|].
    cbn in E. injection E as <- _. inversion H2. discriminate.
  - destruct l2 as [|d l2].
    + destruct p2 as [|p2]; [discriminate|].
      cbn in E. injection E as -> _. inversion H1. discriminate.
    + cbn in E. injection E as <- E.
      inversion H1; inversion H2; subst. f_equal. eapply IH; eassumption.
Qed.

(** [encode_lua] is injective: two byte strings with the same encoding in
    one format are equal. *)
Theorem encode_injective (opt : format) (a b : list byte) :
  encode_lua a opt = encode_lua b opt -> a = b.
Proof.
  intros E. rewrite !encode_lua_shape in E.
  assert (Hp : forall src,
             Forall (fun c => Byte.eqb c "="%byte = false)
                    (fst (encode_symbols opt src))).
  { intros src. eapply Forall_impl; [|apply encode_symbols_alphabet].
    apply alphabet_no_pad. }
  apply app_pad_inj in E; [|apply Hp|apply Hp].
  destruct (decode_encode_symbols opt a 0%nat []) as (a1 & n1 & b1 & Ea & Ha).
  destruct (decode_encode_symbols opt b 0%nat []) as (a2 & n2 & b2 & Eb & Hb).
  rewrite E, Eb in Ea. injection Ea as <- <- <-.
  cbn [app] in Ha, Hb. congruence.
Qed.

Lemma encode_injective_witness :
  bytes "fo" = [x66; x6f].
Proof.
  apply (encode_injective rfc (bytes "fo") [x66; x6f]).
  vm_compute. reflexivity.
Defined.

Lemma encode_symbols_app (opt : format) (a b : list byte) :
  (List.length a mod 5 = 0)%nat ->
  encode_symbols opt (a ++ b)
  = (fst (encode_symbols opt a) ++ fst (encode_symbols opt b),
     (snd (encode_symbols opt a) + snd (encode_symbols opt b))%nat).
Proof.
  induction a as [l Hl | h0 h1 h2 h3 h4 l IH] using list_ind5; intros Hmod.
  - rewrite Nat.mod_small in Hmod by assumption.
    apply length_zero_iff_nil in Hmod. subst l.
    cbn [app]. destruct (encode_symbols opt b). reflexivity.
  - cbn [app]. rewrite !encode_symbols_cons5. cbn [fst snd].
    rewrite IH.
    + cbn [fst snd]. rewrite <- app_assoc. f_equal.
    + cbn [List.length] in Hmod.
      replace (S (S (S (S (S (List.length l))))))
        with (List.length l + 1 * 5)%nat in Hmod by lia.
      now rewrite Nat.Div0.mod_add in Hmod.
Qed.

Lemma pad_count_add8 (opt : format) (m n : nat) :
  (m mod 8 = 0)%nat -> pad_count opt (m + n) = pad_count opt n.
Proof.
  intros H. destruct opt; [|reflexivity]. unfold pad_count.
  rewrite Nat.Div0.add_mod, H, Nat.add_0_l, Nat.Div0.mod_mod. reflexivity.
Qed.

Lemma symbol_count_whole (len : nat) :
  (len mod 5 = 0)%nat -> (symbol_count len mod 8 = 0)%nat.
Proof.
  intros H. rewrite symbol_count_split, H. cbn [nth].
  rewrite Nat.add_0_r, Nat.mul_comm. apply Nat.Div0.mod_mul.
Qed.

(** Encoding composes at 5-byte boundaries: after a prefix whose length is
    a multiple of 5 the encoding of the rest follows unchanged, in both
    formats (the prefix brings no padding). *)
Theorem encode_app (opt : format) (a b : list byte) :
  (List.length a mod 5 = 0)%nat ->
  encode_lua (a ++ b) opt = encode_lua a opt ++ encode_lua b opt.
Proof.
  intros Hmod. rewrite !encode_lua_shape.
  rewrite encode_symbols_app by assumption. cbn [fst].
  destruct (encode_symbols_count opt a) as [Hlen Hcount].
  pose proof (symbol_count_whole _ Hmod) as H8.
  rewrite <- Hcount, Hlen in H8.
  rewrite length_app, pad_count_add8 by assumption.
  replace (pad_count opt (List.length (fst (encode_symbols opt a))))
    with 0%nat.
  - cbn [repeat]. now rewrite app_nil_r, app_assoc.
  - destruct opt; [|reflexivity]. unfold pad_count. now rewrite H8.
Qed.

Lemma encode_app_witness :
  encode_lua (bytes "fooba" ++ bytes "r") rfc
  = encode_lua (bytes "fooba") rfc ++ encode_lua (bytes "r") rfc.
Proof.
  apply (encode_app rfc (bytes "fooba") (bytes "r")). reflexivity.
Defined.

(** ** Concatenated inputs *)

Lemma leading_pads_app_lt (l1 l2 : list byte) :
  (leading_pads l1 < List.length l1)%nat ->
  leading_pads (l1 ++ l2) = leading_pads l1.
Proof.
  induction l1 as [|c l1 IH]; cbn [leading_pads List.length app]; [lia|].
  destruct (Byte.eqb c "="%byte); [|reflexivity].
  intros H. rewrite IH by lia. reflexivity.
Qed.

Lemma trailing_pads_app_lt (s t : list byte) :
  (trailing_pads t < List.length t)%nat ->
  trailing_pads (s ++ t) = trailing_pads t.
Proof.
  unfold trailing_pads. intros H. rewrite rev_app_distr.
  apply leading_pads_app_lt. now rewrite length_rev.
Qed.

Lemma alphabet_accepted (opt : format) (c : byte) :
  In c (encode_table opt) -> accepts opt c = true.
Proof.
  intros H. apply (In_nth _ _ x00) in H as (n & Hn & <-).
  rewrite encode_table_length in Hn.
  destruct (sym_decodes opt (Z.of_nat n)) as (E & _ & _); [lia|].
  unfold char_at in E. rewrite Nat2Z.id in E.
  unfold accepts. rewrite E.
  destruct (Z.ltb_spec 31 (Z.of_nat n)); [lia|]. apply orb_true_r.
Qed.

Lemma rfc_padding_pos (len : nat) :
  (len mod 5 <> 0)%nat -> (0 < rfc_padding len)%nat.
Proof.
  unfold rfc_padding. intros H.
  pose proof (Nat.mod_upper_bound len 5 ltac:(lia)) as Hr.
  destruct (len mod 5)%nat as [|[|[|[|[|r]]]]]; cbn; lia.
Qed.

(** Two padded RFC encodings put one after the other do not decode: the
    first ['='] of the first one is no longer in the trailing run, and is
    reported as an illegal character. *)
Theorem padded_concat_rejected (a b : list byte) :
  (List.length a mod 5 <> 0)%nat ->
  b <> [] ->
  decode_lua (encode_lua a rfc ++ encode_lua b rfc) rfc
  = Err (IllegalCharacter "="%byte (symbol_count (List.length a) + 1)).
Proof.
  intros Ha Hb.
  rewrite (encode_lua_shape a), (encode_lua_shape b).
  destruct (encode_symbols_count rfc a) as [Hla Hca].
  destruct (encode_symbols_count rfc b) as [Hlb Hcb].
  pose proof (encode_symbols_alphabet rfc a) as Haa.
  pose proof (encode_symbols_alphabet rfc b) as Hab.
  set (sa := fst (encode_symbols rfc a)) in *.
  set (sb := fst (encode_symbols rfc b)) in *.
  rewrite <- Hla, Hca, <- Hlb, Hcb.
  destruct (pad_count_rfc (List.length a)) as (-> & _ & Hsa).
  destruct (pad_count_rfc (List.length b)) as (-> & Hbadb & Hsb).
  pose proof (rfc_padding_pos _ Ha) as Hpos.
  destruct (rfc_padding (List.length a)) as [|pa] eqn:Epa; [lia|].
  cbn [repeat]. rewrite <- !app_assoc. cbn [app].
  set (pb := rfc_padding (List.length b)) in *.
  assert (Hlsa : List.length sa = symbol_count (List.length a)) by congruence.
  assert (Hlsb : List.length sb = symbol_count (List.length b)) by congruence.
  assert (Hsb_pos : (0 < List.length sb)%nat).
  { pose proof (symbol_count_ceil (List.length b)).
    destruct b; [contradiction|]. cbn [List.length] in *. lia. }
  assert (Htp : trailing_pads (sa ++ "="%byte :: repeat "="%byte pa
                                 ++ sb ++ repeat "="%byte pb) = pb).
  { replace (sa ++ "="%byte :: repeat "="%byte pa ++ sb ++ repeat "="%byte pb)
      with ((sa ++ "="%byte :: repeat "="%byte pa)
              ++ (sb ++ repeat "="%byte pb))
      by (now rewrite <- app_assoc).
    assert (Hb' : trailing_pads (sb ++ repeat "="%byte pb) = pb).
    { apply trailing_pads_app_repeat.
      eapply Forall_impl; [|exact Hab]. apply alphabet_no_pad. }
    rewrite trailing_pads_app_lt; [exact Hb'|].
    rewrite Hb', length_app, repeat_length. lia. }
  rewrite <- Hlsa.
  apply decode_lua_rfc_illegal.
  - eapply Forall_impl; [|exact Haa]. apply alphabet_accepted.
  - reflexivity.
  - rewrite length_app. cbn [List.length].
    rewrite !length_app, !repeat_length.
    replace (List.length sa + S (pa + (List.length sb + pb)))%nat
      with (0 + ((List.length a + 4) / 5 + (List.length b + 4) / 5) * 8)%nat
      by lia.
    now rewrite Nat.Div0.mod_add.
  - rewrite Htp. exact Hbadb.
  - rewrite Htp, !length_app, !repeat_length. lia.
Qed.

Lemma padded_concat_rejected_witness :
  decode_lua (encode_lua (bytes "f") rfc ++ encode_lua (bytes "o") rfc) rfc
  = Err (IllegalCharacter "="%byte (symbol_count (List.length (bytes "f")) + 1)).
Proof.
  apply (padded_concat_rejected (bytes "f") (bytes "o")).
  - vm_compute. discriminate.
  - discriminate.
Defined.

Lemma add5bits_prefix (p : list byte) acc nbits b dc :
  add5bits acc nbits (p ++ b) dc
  = let '(acc', nbits', b') := add5bits acc nbits b dc in
    (acc', nbits', p ++ b').
Proof.
  unfold add5bits. destruct (40 <=? nbits + 5)%nat; [|reflexivity].
  now rewrite app_assoc.
Qed.

Lemma decode_loop_prefix (opt : format) (p : list byte) (src : list byte) :
  forall i j acc nbits b acc' nbits' b',
    decode_loop opt src j acc nbits b = inr (acc', nbits', b') ->
    decode_loop opt src i acc nbits (p ++ b) = inr (acc', nbits', p ++ b').
Proof.
  induction src as [|c src IH]; intros i j acc nbits b acc' nbits' b' H.
  - cbn in *. now injection H as <- <- <-.
  - cbn [decode_loop] in *.
    destruct (Byte.eqb c "-"%byte && is_crockford opt); [eapply IH, H|].
    destruct (31 <? tbl_at (decode_table opt) c); [discriminate|].
    rewrite add5bits_prefix.
    destruct (add5bits acc nbits b (tbl_at (decode_table opt) c))
      as [[acc1 nbits1] b1]. eapply IH, H.
Qed.

Lemma decode_loop_app (opt : format) (s t : list byte) :
  forall i acc nbits b acc' nbits' b',
    decode_loop opt s i acc nbits b = inr (acc', nbits', b') ->
    decode_loop opt (s ++ t) i acc nbits b
    = decode_loop opt t (i + List.length s) acc' nbits' b'.
Proof.
  induction s as [|c s IH]; intros i acc nbits b acc' nbits' b' H.
  - cbn in H. injection H as <- <- <-. cbn. now rewrite Nat.add_0_r.
  - cbn [app List.length decode_loop] in *.
    replace (i + S (List.length s))%nat with (S i + List.length s)%nat by lia.
    destruct (Byte.eqb c "-"%byte && is_crockford opt); [eapply IH, H|].
    destruct (31 <? tbl_at (decode_table opt) c); [discriminate|].
    destruct (add5bits acc nbits b (tbl_at (decode_table opt) c))
      as [[acc1 nbits1] b1]. eapply IH, H.
Qed.

Lemma drain_prefix (p : list byte) (nbits : nat) :
  forall acc b, snd (drain acc nbits (p ++ b)) = p ++ snd (drain acc nbits b).
Proof.
  induction nbits as [n IH] using lt_wf_ind. intros acc b.
  do 8 (destruct n as [|n]; [reflexivity|]).
  cbn [drain]. rewrite <- app_assoc. apply IH. lia.
Qed.

Lemma decode_lua_nil (opt : format) : decode_lua [] opt = Ok [].
Proof. destruct opt; reflexivity. Qed.

(** Decoding composes at 8-character boundaries: when [s] decodes to [x]
    after reading a multiple of 8 characters, none of them padding, and
    [t] decodes to [y], then [s ++ t] decodes to [x ++ y]. *)
Theorem decode_app (opt : format) (s t x y : list byte) :
  decode_lua s opt = Ok x ->
  decode_lua t opt = Ok y ->
  match opt with
  | rfc => trailing_pads s = 0%nat
  | crockford => (data_count crockford s mod 8 = 0)%nat
  end ->
  decode_lua (s ++ t) opt = Ok (x ++ y).
Proof.
  intros Hs Ht Hside.
  destruct t as [|c0 t0].
  { rewrite decode_lua_nil in Ht. injection Ht as <-.
    now rewrite !app_nil_r. }
  set (t := c0 :: t0) in *.
  apply decode_lua_ok_inv in Hs as (Hwfs & a1 & n1 & b1 & Es & ->).
  apply decode_lua_ok_inv in Ht as (Hwft & a2 & n2 & b2 & Et & ->).
  (* the scan of [s] reads all of [s] and ends with an empty accumulator *)
  assert (Hscan_s : scanned_len opt s = List.length s).
  { destruct opt; cbn [scanned_len]; [rewrite Hside; lia|reflexivity]. }
  rewrite Hscan_s, firstn_all in Es.
  assert (Hcount : (data_count opt s mod 8 = 0)%nat).
  { destruct opt; [|exact Hside].
    rewrite data_count_rfc. apply Hwfs. }
  destruct (decode_loop_inv opt s 0%nat 0 0%nat [] a1 n1 b1)
    as (Ha1 & Hn1 & (k & Hk) & Hlen1);
    [reflexivity | lia | exists 0%nat; reflexivity | exact Es |].
  cbn [List.length] in Hlen1.
  assert (n1 = 0%nat).
  { apply Nat.Div0.div_exact in Hcount.
    assert (Hk8 : (k mod 8 = 0)%nat).
    { assert (E : (5 * k = (data_count opt s / 8 * 5 - List.length b1) * 8)%nat)
        by lia.
      assert (E' : ((5 * k) mod 8 = 0)%nat)
        by (rewrite E; apply Nat.Div0.mod_mul).
      pose proof (Nat.div_mod_eq k 8) as Hdk.
      pose proof (Nat.mod_upper_bound k 8 ltac:(lia)) as Hrk.
      replace (5 * k)%nat with (5 * (k mod 8) + (5 * (k / 8)) * 8)%nat in E'
        by lia.
      rewrite Nat.Div0.mod_add in E'.
      destruct (k mod 8)%nat as [|[|[|[|[|[|[|[|r]]]]]]]];
        try reflexivity; try (cbn in E'; discriminate). lia. }
    pose proof (Nat.div_mod_eq k 8). lia. }
  clear Hk. subst n1.
  assert (Hzero : a1 = 0) by (rewrite Ha1; exact (Z.mod_1_r a1)).
  clear Ha1. subst a1.
  cbn [drain snd].
  (* the checks pass on [s ++ t] and its scan is that of [s] then [t] *)
  assert (Hfirst : firstn (scanned_len opt (s ++ t)) (s ++ t)
                   = s ++ firstn (scanned_len opt t) t
                   /\ match opt with
                      | rfc => (List.length (s ++ t) mod 8 = 0)%nat /\
                               bad_npad (trailing_pads (s ++ t)) = false
                      | crockford => True
                      end).
  { destruct opt; cbn [scanned_len well_formed] in *.
    - destruct Hwfs as (Hls & _ & _). destruct Hwft as (Hlt & Hbt & _).
      pose proof (bad_npad_le6 _ Hbt) as H6.
      assert (Hlt8 : (8 <= List.length t)%nat).
      { pose proof (Nat.div_mod_eq (List.length t) 8).
        subst t. cbn [List.length] in *. lia. }
      rewrite trailing_pads_app_lt by lia.
      split; [|split; [|exact Hbt]].
      + rewrite firstn_app, length_app, firstn_all2 by lia.
        do 2 f_equal. lia.
      + rewrite length_app, Nat.Div0.add_mod, Hls, Hlt. reflexivity.
    - split; [|exact I]. now rewrite !firstn_all. }
  destruct Hfirst as [Hfirst Hchk].
  rewrite (decode_lua_scan opt (s ++ t) Hchk). unfold decode_scan.
  rewrite Hfirst, (decode_loop_app opt s _ _ _ _ _ _ _ _ Es).
  replace b1 with (b1 ++ []) at 1 by apply app_nil_r.
  rewrite (decode_loop_prefix opt b1 _ _ _ _ _ _ _ _ _ Et).
  now rewrite drain_prefix.
Qed.

Lemma decode_app_witness :
  decode_lua (bytes "MZXW6YTB" ++ bytes "OI======") rfc
  = Ok (bytes "fooba" ++ bytes "r").
Proof.
  apply (decode_app rfc (bytes "MZXW6YTB") (bytes "OI======")).
  - vm_compute. reflexivity.
  - vm_compute. reflexivity.
  - reflexivity.
Defined.

(** ** Tables and alphabets agree *)

(** The decode table of a format inverts its alphabet: the character at
    index [k < 32] of the alphabet has entry [k]; and the alphabet
    character for the entry of an accepted character other than a skipped
    ['-'] is that character in canonical form. *)
Theorem table_inverts_alphabet (opt : format) :
  (forall k : nat,
      (k < 32)%nat ->
      tbl_at (decode_table opt) (nth k (encode_table opt) x00) = Z.of_nat k) /\
  (forall c : byte,
      accepts opt c = true -> skipped opt c = false ->
      char_at (encode_table opt) (tbl_at (decode_table opt) c)
      = canonical opt c).
Proof.
  split.
  - intros k Hk.
    destruct (sym_decodes opt (Z.of_nat k)) as (E & _ & _); [lia|].
    unfold char_at in E. now rewrite Nat2Z.id in E.
  - intros c.
    destruct opt; destruct c; try by_computation;
      intros H1 H2; try discriminate H1; discriminate H2.
Qed.

Lemma table_inverts_alphabet_witness :
  char_at (encode_table crockford)
          (tbl_at (decode_table crockford) "l"%byte)
  = canonical crockford "l"%byte.
Proof.
  apply (proj2 (table_inverts_alphabet crockford) "l"%byte); reflexivity.
Defined.

(** ** The two loops of the encoder *)

Lemma encode_bulk_result (tbl : list byte) (src : list byte) :
  fst (fst (encode_bulk tbl src [] 0)) = skipn (5 * (List.length src / 5)) src
  /\ snd (encode_bulk tbl src [] 0) = (8 * (List.length src / 5))%nat.
Proof.
  induction src as [l Hl | h0 h1 h2 h3 h4 l [IH1 IH2]] using list_ind5.
  - rewrite encode_bulk_short by assumption.
    rewrite Nat.div_small by assumption. split; reflexivity.
  - rewrite encode_bulk_cons5, encode_bulk_acc.
    destruct (encode_bulk tbl l [] 0) as [[h b'] n'].
    cbn [fst snd] in *. subst h n'.
    cbn [List.length].
    replace (S (S (S (S (S (List.length l))))))
      with (List.length l + 1 * 5)%nat by lia.
    rewrite Nat.div_add by lia.
    replace (5 * (List.length l / 5 + 1))%nat
      with (5 + 5 * (List.length l / 5))%nat by lia.
    split; [reflexivity|lia].
Qed.

Lemma load_tail_short (head : list byte) :
  (List.length head < 5)%nat ->
  load_tail head 0 0 = (be_value head, (8 * List.length head)%nat) /\
  0 <= be_value head < 2 ^ 32.
Proof.
  intros H.
  assert (E : load_tail head 0 0 = (be_value head, (8 * List.length head)%nat)
              /\ be_value head = be_value head mod 2 ^ 32).
  { destruct head as [|h0 [|h1 [|h2 [|h3 [|h4 l']]]]];
      try (cbn in H; lia);
      unfold be_value;
      cbn [load_tail fold_left List.length Nat.add Nat.mul];
      (split; [f_equal|]); unfold uint32; bytes_as_mod; bits. }
  destruct E as [E1 E2]. split; [exact E1|].
  rewrite E2. apply Z.mod_pos_bound. reflexivity.
Qed.

(** The bulk loop of [encode_lua] reads the input in whole groups of 5
    bytes, writing 8 characters for each, and leaves the last
    [len mod 5 < 5] bytes; loading these into the 32-bit accumulator of
    the tail never wraps: it holds their big-endian value. *)
Theorem encode_loops (tbl : list byte) (src : list byte) :
  let head := fst (fst (encode_bulk tbl src [] 0)) in
  head = skipn (5 * (List.length src / 5)) src /\
  List.length head = (List.length src mod 5)%nat /\
  snd (encode_bulk tbl src [] 0) = (8 * (List.length src / 5))%nat /\
  load_tail head 0 0 = (be_value head, (8 * List.length head)%nat) /\
  0 <= be_value head < 2 ^ 32.
Proof.
  cbv zeta. destruct (encode_bulk_result tbl src) as [E1 E2].
  pose proof (encode_bulk_head tbl src [] 0) as Hh.
  destruct (load_tail_short _ Hh) as [E3 E4].
  split_all; try assumption; try apply E4.
  rewrite E1, length_skipn.
  pose proof (Nat.div_mod_eq (List.length src) 5). lia.
Qed.
